(** * Email scraper: crawl engine and batch dispatcher

    A shallow embedding of [scrapper.py] (validator, extractor, subpage
    discoverer, page fetcher, site crawler) and of the worker sizing and
    worker boundary of [app.py].

    Conventions of the model.
    - Page text is a Python [str] whose code points are below 256; it is a
      Rocq [string], one [ascii] per code point (Latin-1).  [str.lower],
      [str.strip] and the regular expression classes [\d] and [\s] are
      written out for that range.  Only [chr] in the entity decoder can
      leave the range, so decoded text is a list of code points ([N]).
    - Python integers are [Z].
    - Python sets are [gset string]; iterating a set is [elements], whose
      order nothing below depends on.
    - Exceptions are values of [exn], the subclasses of [Exception]; a
      computation that may raise returns a [result].
    - The parsed page is a record of what the program reads of it;
      [urllib.parse] and the network are parameters.
    - The crawler threads its mutable objects through explicit state: the
      visited set, and a log of its requests and sleeps.  A request is
      logged with the value of the loop variable [attempt]; the duration
      of the random delay is not modelled.
    - [print] calls are left out. *)

From Stdlib Require Import ZArith NArith Lia List Bool Ascii String.
From stdpp Require Import base gmap sets list strings.

Import ListNotations.
Open Scope bool_scope.
Open Scope Z_scope.

(* ===================================================================== *)
(** ** Exceptions *)

Inductive exn : Type :=
  | RequestException   (* requests.RequestException: network-level failure *)
  | ValueError         (* e.g. chr() out of range *)
  | OverflowError      (* chr() of a number that is no C int *)
  | OtherError.        (* any other subclass of Exception *)

Inductive result (A : Type) : Type :=
  | Ok (a : A)
  | Raise (e : exn).
Arguments Ok {A} a.
Arguments Raise {A} e.

#[global] Instance result_ret : MRet result := fun A a => Ok a.
#[global] Instance result_bind : MBind result := fun A B f m =>
  match m with
  | Ok a => f a
  | Raise e => Raise e
  end.

(* ===================================================================== *)
(** ** Characters and strings *)

Module Str.

Definition chars (s : string) : list ascii := list_ascii_of_string s.
Definition text (l : list ascii) : string := string_of_list_ascii l.

Definition code (a : ascii) : N := N_of_ascii a.

Definition between (lo hi n : N) : bool := ((lo <=? n) && (n <=? hi))%N.

(** Character classes of the patterns, on code points. *)
Definition is_lower_az (n : N) : bool := between 97 122 n.
Definition is_upper_az (n : N) : bool := between 65 90 n.
Definition is_digit (n : N) : bool := between 48 57 n.
Definition is_letter (n : N) : bool := is_lower_az n || is_upper_az n.
Definition is_alnum (n : N) : bool := is_letter n || is_digit n.

(** [[a-zA-Z0-9._%+-]] *)
Definition is_local_char (n : N) : bool :=
  is_alnum n || (n =? 46)%N || (n =? 95)%N || (n =? 37)%N || (n =? 43)%N
  || (n =? 45)%N.

(** [[a-zA-Z0-9.-]] *)
Definition is_domain_char (n : N) : bool :=
  is_alnum n || (n =? 46)%N || (n =? 45)%N.

(** The class of the two quote characters, single and double. *)
Definition is_quote (n : N) : bool := (n =? 39)%N || (n =? 34)%N.

(** [\s] and [str.isspace] below code point 256. *)
Definition is_space (n : N) : bool :=
  between 9 13 n || between 28 31 n || (n =? 32)%N || (n =? 133)%N
  || (n =? 160)%N.

Definition is_char (c : N) (n : N) : bool := (n =? c)%N.

(** [str.lower] below code point 256: A-Z and the Latin-1 capitals
    (U+00C0..U+00DE except the multiplication sign U+00D7) move up by 32. *)
Definition lower_char (a : ascii) : ascii :=
  let n := code a in
  if is_upper_az n || (between 192 222 n && negb (n =? 215)%N)
  then ascii_of_N (n + 32) else a.

Definition lower_chars (l : list ascii) : list ascii := map lower_char l.
Definition lower (s : string) : string := text (lower_chars (chars s)).

(** [str.strip()] *)
Fixpoint lstrip_chars (l : list ascii) : list ascii :=
  match l with
  | c :: l' => if is_space (code c) then lstrip_chars l' else l
  | [] => []
  end.
Definition strip_chars (l : list ascii) : list ascii :=
  rev (lstrip_chars (rev (lstrip_chars l))).
Definition strip (s : string) : string := text (strip_chars (chars s)).

(** [s.startswith(p)] *)
Fixpoint starts_with (p l : list ascii) : bool :=
  match p, l with
  | [], _ => true
  | a :: p', b :: l' => Ascii.eqb a b && starts_with p' l'
  | _ :: _, [] => false
  end.
Definition startswith (s p : string) : bool := starts_with (chars p) (chars s).

(** [sub in s] *)
Fixpoint contains_chars (sub l : list ascii) : bool :=
  starts_with sub l ||
  match l with
  | [] => false
  | _ :: l' => contains_chars sub l'
  end.
Definition contains (sub s : string) : bool :=
  contains_chars (chars sub) (chars s).

(** [s.split(c)[0]] *)
Fixpoint before_char (c : ascii) (l : list ascii) : list ascii :=
  match l with
  | [] => []
  | a :: l' => if Ascii.eqb a c then [] else a :: before_char c l'
  end.
Definition split_head (c : ascii) (s : string) : string :=
  text (before_char c (chars s)).

(** [s.replace(old, '')] for a non-empty [old]: the occurrences of [old]
    are removed left to right, without overlap. *)
Fixpoint remove_aux (old : list ascii) (skip : nat) (l : list ascii)
  : list ascii :=
  match l with
  | [] => []
  | a :: l' =>
      match skip with
      | S n => remove_aux old n l'
      | O => if starts_with old l
             then remove_aux old (length old - 1) l'
             else a :: remove_aux old O l'
      end
  end.
Definition remove_all (old s : string) : string :=
  text (remove_aux (chars old) O (chars s)).

(** [sep.join(parts)] *)
Fixpoint join (sep : string) (parts : list string) : string :=
  match parts with
  | [] => EmptyString
  | [p] => p
  | p :: rest => (p +:+ sep +:+ join sep rest)%string
  end.

Definition is_empty (s : string) : bool :=
  match s with EmptyString => true | _ => false end.

End Str.

(* ===================================================================== *)
(** ** Regular expressions

    Every pattern of the program is a concatenation of character classes,
    each with a greedy repetition count, so a pattern is a list of such
    items.  [match_here] is the backtracking search of [re]: an item first
    takes the longest run it can and gives characters back one at a time
    until the rest of the pattern matches. *)

Module Re.
Section Engine.
Context {A : Type}.

Record item : Type := Item {
  cls : A -> bool;          (* the character class *)
  lo : nat;                 (* minimal number of repetitions *)
  hi : option nat           (* maximal number, [None] for unbounded *)
}.

Definition pattern : Type := list item.

(** Length of the longest prefix of [s] inside class [c], capped. *)
Fixpoint run (c : A -> bool) (cap : option nat) (s : list A) : nat :=
  match cap with
  | Some O => O
  | _ =>
      match s with
      | a :: s' =>
          if c a then S (run c (Nat.pred <$> cap) s') else O
      | [] => O
      end
  end.

(** Try [k], [k-1], ..., [lo] repetitions, the first that lets the rest
    of the pattern match wins. The result lists what each item took. *)
Fixpoint backtrack (rest : list A -> option (list (list A)))
    (s : list A) (lo k : nat) : option (list (list A)) :=
  if (k <? lo)%nat then None
  else match rest (drop k s) with
       | Some taken => Some (take k s :: taken)
       | None =>
           match k with
           | O => None
           | S k' => backtrack rest s lo k'
           end
       end.

(** Match the pattern at the start of [s]; [fin] is the condition on
    what is left ([$], or nothing). *)
Fixpoint match_here (p : pattern) (fin : list A -> bool) (s : list A)
  : option (list (list A)) :=
  match p with
  | [] => if fin s then Some [] else None
  | it :: p' =>
      backtrack (match_here p' fin) s (lo it) (run (cls it) (hi it) s)
  end.

Definition anywhere (s : list A) : bool := true.

(** [re.search(p, s)] as a truth value. *)
Fixpoint re_search (p : pattern) (s : list A) : bool :=
  match match_here p anywhere s with
  | Some _ => true
  | None => match s with
            | [] => false
            | _ :: s' => re_search p s'
            end
  end.

(** The scan of [re.findall] and [re.sub]: matches are taken leftmost
    first and do not overlap. [skip] counts the characters of the last
    match still to be passed over. Every pattern of the program takes
    at least one character, so the rules of [re] for empty matches do
    not arise. *)
Fixpoint scan (p : pattern) (skip : nat) (s : list A)
  : list (list (list A)) :=
  match s with
  | [] => []
  | _ :: s' =>
      match skip with
      | S n => scan p n s'
      | O =>
          match match_here p anywhere s with
          | Some taken =>
              taken :: scan p (length (concat taken) - 1) s'
          | None => scan p O s'
          end
      end
  end.

(** [re.findall(p, s)] for a pattern without groups: the matched
    substrings. *)
Definition findall (p : pattern) (s : list A) : list (list A) :=
  map (@concat A) (scan p O s).

(** [re.findall(p, s)] for a pattern whose single group is item [g]. *)
Definition findall_group (p : pattern) (g : nat) (s : list A)
  : list (list A) :=
  map (fun taken => nth g taken []) (scan p O s).

(** [re.sub(p, repl, s)]: the text outside the matches is kept ([inj]
    embeds its characters in the type of the result), each match is
    replaced by what [repl] returns for it, and an exception of [repl]
    ends the substitution. *)
Fixpoint sub {B : Type} (p : pattern) (inj : A -> B)
    (repl : list (list A) -> result (list B)) (skip : nat) (s : list A)
  : result (list B) :=
  match s with
  | [] => Ok []
  | a :: s' =>
      match skip with
      | S n => sub p inj repl n s'
      | O =>
          match match_here p anywhere s with
          | Some taken =>
              match repl taken with
              | Ok r =>
                  match sub p inj repl (length (concat taken) - 1) s' with
                  | Ok out => Ok (r ++ out)
                  | Raise e => Raise e
                  end
              | Raise e => Raise e
              end
          | None =>
              match sub p inj repl O s' with
              | Ok out => Ok (inj a :: out)
              | Raise e => Raise e
              end
          end
      end
  end.

(** The scan over [pre ++ s] comes to the start of [s] with no match
    under way: no match that starts in [pre] runs into [s]. *)
Fixpoint arrives (p : pattern) (skip : nat) (pre s : list A) : bool :=
  match pre with
  | [] => match skip with O => true | S _ => false end
  | _ :: pre' =>
      match skip with
      | S n => arrives p n pre' s
      | O =>
          match match_here p anywhere (pre ++ s) with
          | Some taken => arrives p (length (concat taken) - 1) pre' s
          | None => arrives p O pre' s
          end
      end
  end.

(** For the statements: an item and the characters it took, and a text
    at whose head the run of a class stops. *)
Definition fits (it : item) (chunk : list A) : Prop :=
  Forall (fun a => cls it a = true) chunk
  /\ (lo it <= length chunk)%nat
  /\ (forall n, hi it = Some n -> (length chunk <= n)%nat).

Definition stops (c : A -> bool) (s : list A) : Prop :=
  match s with
  | [] => True
  | a :: _ => c a = false
  end.

(** For the statements: the classes of the pattern do not tell [a] from
    [f a]. *)
Definition keeps (f : A -> A) (p : pattern) : Prop :=
  Forall (fun it => forall a, cls it (f a) = cls it a) p.

End Engine.
Arguments item : clear implicits.
Arguments pattern : clear implicits.
End Re.

(* ===================================================================== *)
(** ** The patterns of [scrapper.py] *)

Module Pat.
Section Patterns.
Context {A : Type} (code : A -> N).

Definition one (c : N -> bool) : Re.item A := Re.Item (c ∘ code) 1 (Some 1%nat).
Definition plus (c : N -> bool) : Re.item A := Re.Item (c ∘ code) 1 None.
Definition star (c : N -> bool) : Re.item A := Re.Item (c ∘ code) 0 None.
Definition at_least (n : nat) (c : N -> bool) : Re.item A :=
  Re.Item (c ∘ code) n None.
Definition exactly (n : nat) (c : N -> bool) : Re.item A :=
  Re.Item (c ∘ code) n (Some n).

(** [[a-zA-Z0-9._%+-]+@[a-zA-Z0-9.-]+\.[A-Za-z]{2,}] *)
Definition email_pattern : Re.pattern A :=
  [ plus Str.is_local_char; one (Str.is_char 64);
    plus Str.is_domain_char; one (Str.is_char 46);
    at_least 2 Str.is_letter ].

(** The concatenation pattern: a quoted local part, [+], a quoted [@],
    [+], a quoted domain, with [\s*] on both sides of each [+]. *)
Definition concat_pattern : Re.pattern A :=
  [ one Str.is_quote; plus Str.is_local_char; one Str.is_quote;
    star Str.is_space; one (Str.is_char 43); star Str.is_space;
    one Str.is_quote; one (Str.is_char 64); one Str.is_quote;
    star Str.is_space; one (Str.is_char 43); star Str.is_space;
    one Str.is_quote; plus Str.is_domain_char; one (Str.is_char 46);
    at_least 2 Str.is_letter; one Str.is_quote ].

(** The pattern of the fragments: a quote, a group of non-quote
    characters (item 1), a quote, [\s*\+\s*]. *)
Definition parts_pattern : Re.pattern A :=
  [ one Str.is_quote; star (fun n => negb (Str.is_quote n));
    one Str.is_quote; star Str.is_space; one (Str.is_char 43);
    star Str.is_space ].
Definition parts_group : nat := 1.

(** [&#(\d+);], the group is item 2. *)
Definition entity_pattern : Re.pattern A :=
  [ one (Str.is_char 38); one (Str.is_char 35); plus Str.is_digit;
    one (Str.is_char 59) ].
Definition entity_group : nat := 2.

(** [\d{3}-\d{3}-\d{4}] *)
Definition phone_pattern : Re.pattern A :=
  [ exactly 3 Str.is_digit; one (Str.is_char 45);
    exactly 3 Str.is_digit; one (Str.is_char 45);
    exactly 4 Str.is_digit ].

(** [$]: at the end of the string, or before a newline that ends it. *)
Definition dollar (s : list A) : bool :=
  match s with
  | [] => true
  | [a] => (code a =? 10)%N
  | _ => false
  end.

End Patterns.
End Pat.

(* ===================================================================== *)
(** ** Email validator *)

Definition common_false_positives : list string :=
  [ "example.com"; "domain.com"; "email.com"; "your-email.com";
    "username@"; "@domain"; "example@example" ]%string.

Definition local_part (email : string) : string := Str.split_head "@" email.

(** [validate_email] *)
Definition validate_email (email : string) : bool :=
  if Str.is_empty email || negb (Str.contains "@" email) then false
  else if existsb (fun fp => Str.contains fp (Str.lower email))
            common_false_positives then false
  else if Re.re_search (Pat.phone_pattern Str.code)
            (Str.chars (local_part email)) then false
  else bool_decide (is_Some
         (Re.match_here (Pat.email_pattern Str.code) (Pat.dollar Str.code)
            (Str.chars email))).

(* ===================================================================== *)
(** ** Email extractor *)

(** The parsed page, as far as the program reads it. *)
Record a_tag : Type := ATag {
  href : string;                  (* a_tag['href'] *)
  link_text : string              (* a_tag.get_text() *)
}.

Record soup : Type := Soup {
  a_tags : list a_tag;            (* soup.find_all('a', href=True) *)
  stripped_strings : list string; (* soup.stripped_strings *)
  script_texts : list string      (* get_text() of soup.find_all('script') *)
}.

(** [emails.add(e)] when [ok], as the loops of the extractor do. *)
Definition add_if (ok : bool) (e : string) (emails : gset string)
  : gset string :=
  if ok then {[ e ]} ∪ emails else emails.

(** The number that a string of decimal digits writes. *)
Definition digits_value (ds : list ascii) : N :=
  fold_left (fun acc d => (10 * acc + (Str.code d - 48))%N) ds 0%N.

(** [sys.get_int_max_str_digits()], at its default. *)
Definition int_max_str_digits : N := 4300.

(** [int(digits)], of a string of decimal digits: [ValueError] when the
    string has more digits than the limit of the interpreter, leading
    zeros counted. *)
Definition int_of_digits (ds : list ascii) : result N :=
  if (int_max_str_digits <? N.of_nat (length ds))%N then Raise ValueError
  else Ok (digits_value ds).

(** [chr(n)]: [ValueError] from 0x110000 on, and [OverflowError] from
    2**31 on, where the number is no C int. *)
Definition chr (n : N) : result (list N) :=
  if (n <? 1114112)%N then Ok [n]
  else if (n <? 2147483648)%N then Raise ValueError
  else Raise OverflowError.

(** [re.sub(r'&#(\d+);', lambda m: chr(int(m.group(1))), text)] *)
Definition decode_entities (text : string) : result (list N) :=
  Re.sub (Pat.entity_pattern Str.code) Str.code
    (fun taken => n ← int_of_digits (nth Pat.entity_group taken []); chr n)
    O (Str.chars text).

(** A match of the email pattern in decoded text, back as a string: its
    code points are all ASCII. *)
Definition text_of_codes (m : list N) : string :=
  Str.text (map ascii_of_N m).

(** [extract_emails_from_text] *)
Definition extract_emails_from_text (text : list N) : gset string :=
  match text with
  | [] => ∅
  | _ =>
      fold_left
        (fun emails m =>
           let email := Str.strip (Str.lower (text_of_codes m)) in
           add_if (validate_email email) email emails)
        (Re.findall (Pat.email_pattern id) text) ∅
  end.

(** The fragments of one match of the concatenation pattern, joined. *)
Definition reconstruct (m : list ascii) : string :=
  Str.text (concat
    (Re.findall_group (Pat.parts_pattern Str.code) Pat.parts_group
       (m ++ Str.chars "+"))).

(** The body of the loop over the matches of the concatenation
    pattern. *)
Definition add_reconstructed (emails : gset string) (m : list ascii)
  : gset string :=
  let reconstructed := reconstruct m in
  add_if (Str.contains "@" reconstructed && validate_email reconstructed)
    reconstructed emails.

(** [extract_obfuscated_emails] *)
Definition extract_obfuscated_emails (text : string) : result (gset string) :=
  let emails :=
    fold_left add_reconstructed
      (Re.findall (Pat.concat_pattern Str.code) (Str.chars text)) ∅ in
  match decode_entities text with
  | Ok text_decoded => Ok (emails ∪ extract_emails_from_text text_decoded)
  | Raise e => Raise e
  end.

(** The three loops of [extract_emails]. *)
Definition mailto_emails (sp : soup) (emails : gset string) : gset string :=
  fold_left
    (fun emails a =>
       if Str.startswith (href a) "mailto:"
       then
         let email :=
           Str.lower (Str.strip
             (Str.remove_all "mailto:" (Str.split_head "?" (href a)))) in
         add_if (validate_email email) email emails
       else emails)
    (a_tags sp) emails.

Definition text_emails (sp : soup) (emails : gset string) : gset string :=
  fold_left
    (fun emails m =>
       let email := Str.text m in
       add_if (validate_email email) (Str.lower email) emails)
    (Re.findall (Pat.email_pattern Str.code)
       (Str.chars (Str.join " " (stripped_strings sp))))
    emails.

Fixpoint script_emails (scripts : list string) (emails : gset string)
  : result (gset string) :=
  match scripts with
  | [] => Ok emails
  | script_text :: rest =>
      match extract_obfuscated_emails script_text with
      | Ok found => script_emails rest (emails ∪ found)
      | Raise e => Raise e
      end
  end.

(** [extract_emails] *)
Definition extract_emails (sp : soup) : result (gset string) :=
  script_emails (script_texts sp) (text_emails sp (mailto_emails sp ∅)).

(* ===================================================================== *)
(** ** Subpage discoverer *)

Definition keywords : list string :=
  [ "contact"; "about"; "reach"; "support"; "help"; "info"; "team"; "staff";
    "brokers"; "get in touch"; "our people"; "meet the team"; "directory";
    "contact us"; "about us"; "reach us" ]%string.

(** For the statements: the keywords that are not made of another
    keyword and more. *)
Definition core_keywords : list string :=
  [ "contact"; "about"; "reach"; "support"; "help"; "info"; "team"; "staff";
    "brokers"; "get in touch"; "our people"; "directory" ]%string.

(** What the program reads of [urlparse(url)]. *)
Record parsed_url : Type := ParsedUrl {
  scheme : string;
  netloc : string;
  path : string
}.

Definition has_keyword (s : string) : bool :=
  existsb (fun keyword => Str.contains keyword s) keywords.

(** What one [session.get] followed by the rendering and the parsing of
    the page comes to: a parsed page, or an exception. Only
    [RequestException] is a network-level failure for [process_url]. *)
Inductive fetch_outcome : Type :=
  | Rendered (sp : soup)
  | Failed (e : exn).

(** What a job does to the outside world, in order. *)
Inductive event : Type :=
  | Get (url : string) (attempt : Z)   (* session.get(url), in try [attempt] *)
  | Backoff (seconds : Z)              (* time.sleep(2 * (attempt + 1)) *)
  | PoliteDelay.                       (* time.sleep(random.uniform(..)) *)

(** The mutable state of a job: the visited set, shared by [find_emails]
    and [process_url], and the log of its events. *)
Record job_state : Type := JobState {
  visited_urls : gset string;
  requests : nat;                      (* number of [Get] so far *)
  log : list event
}.

Definition initial_state : job_state := JobState ∅ 0 [].

Definition mark_visited (url : string) (st : job_state) : job_state :=
  JobState ({[ url ]} ∪ visited_urls st) (requests st) (log st).

Definition record_get (url : string) (attempt : Z) (st : job_state)
  : job_state :=
  JobState (visited_urls st) (S (requests st)) (log st ++ [Get url attempt]).

Definition record (e : event) (st : job_state) : job_state :=
  JobState (visited_urls st) (requests st) (log st ++ [e]).

Section Crawler.

(** [urllib.parse] is outside the program: [urljoin] and [urlparse] are
    parameters, and may raise (they do on a malformed host). *)
Variable urljoin : string -> string -> result string.
Variable urlparse : string -> result parsed_url.

(** [find_subpage_urls] *)
Fixpoint subpage_loop (base_netloc : string) (base_url : string)
    (tags : list a_tag) (subpage_urls : gset string)
  : result (gset string) :=
  match tags with
  | [] => Ok subpage_urls
  | a :: rest =>
      let text := Str.lower (Str.strip (link_text a)) in
      abs_url ← urljoin base_url (href a);
      parsed ← urlparse abs_url;
      if (has_keyword text || has_keyword (Str.lower (path parsed)))
         && (String.eqb (netloc parsed) base_netloc
             && (String.eqb (scheme parsed) "http"
                 || String.eqb (scheme parsed) "https"))
      then subpage_loop base_netloc base_url rest ({[ abs_url ]} ∪ subpage_urls)
      else subpage_loop base_netloc base_url rest subpage_urls
  end.

Definition find_subpage_urls (sp : soup) (base_url : string)
  : result (gset string) :=
  base ← urlparse base_url;
  subpage_loop (netloc base) base_url (a_tags sp) ∅.


(** The network: the outcome of the [n]-th request of the job, for the
    URL it asks. *)
Variable net : nat -> string -> fetch_outcome.

(** The [for attempt in range(max_retries)] loop of [process_url], with
    [n] tries left. Its [else] branch is the case of no try left. *)
Fixpoint attempts (url : string) (max_retries : Z) (n : nat) (attempt : Z)
    (st : job_state) : result (gset string * list string) * job_state :=
  match n with
  | O => (Ok (∅, []), st)
  | S n' =>
      let st1 := record_get url attempt st in
      match net (requests st) url with
      | Rendered sp =>
          (emails ← extract_emails sp;
           found ← find_subpage_urls sp url;
           Ok (emails, elements found), st1)
      | Failed RequestException =>
          let st2 :=
            if attempt <? max_retries - 1
            then record (Backoff (2 * (attempt + 1))) st1
            else st1 in
          attempts url max_retries n' (attempt + 1) st2
      | Failed e => (Raise e, st1)
      end
  end.

(** [process_url] *)
Definition process_url (url : string) (max_retries : Z) (st : job_state)
  : result (gset string * list string) * job_state :=
  if bool_decide (url ∈ visited_urls st) then (Ok (∅, []), st)
  else attempts url max_retries (Z.to_nat max_retries) 0
         (mark_visited url st).

(** The state of the loop of [find_emails] when it ends; [raised] is the
    exception that ended it, if one did. *)
Record loop_end : Type := LoopEnd {
  all_emails : gset string;
  pages_visited : Z;
  raised : option exn
}.

(** The [while subpages_to_visit and pages_visited < max_subpages] loop.
    Nothing is appended to [subpages_to_visit] inside it, and each turn
    pops its head. *)
Fixpoint drain (max_subpages max_retries : Z)
    (subpages_to_visit : list string) (pages_visited : Z)
    (all_emails : gset string) (st : job_state) : loop_end * job_state :=
  match subpages_to_visit with
  | [] => (LoopEnd all_emails pages_visited None, st)
  | current_url :: rest =>
      if pages_visited <? max_subpages then
        if bool_decide (current_url ∈ visited_urls st)
        then drain max_subpages max_retries rest pages_visited all_emails st
        else
          match process_url current_url max_retries (record PoliteDelay st)
          with
          | (Ok (emails, _), st') =>
              drain max_subpages max_retries rest (pages_visited + 1)
                (all_emails ∪ emails) st'
          | (Raise e, st') =>
              (LoopEnd all_emails pages_visited (Some e), st')
          end
      else (LoopEnd all_emails pages_visited None, st)
  end.

(** The seed as [find_emails] fetches it. *)
Definition normalize (base_url : string) : string :=
  if Str.startswith base_url "http://" || Str.startswith base_url "https://"
  then base_url else ("https://" +:+ base_url)%string.

(** The body of [find_emails]: the emails it has when it returns, the
    exception its [except Exception] clause caught, if any, and the final
    state of the job. *)
Record job_end : Type := JobEnd {
  job_emails : gset string;
  job_raised : option exn;
  job_state_end : job_state
}.

Definition run_job (base_url : string) (max_subpages max_retries : Z)
  : job_end :=
  let base_url := normalize base_url in
  match process_url base_url max_retries initial_state with
  | (Ok (emails, subpages), st) =>
      let '(fin, st') :=
        drain max_subpages max_retries subpages 1 (∅ ∪ emails) st in
      JobEnd (all_emails fin) (raised fin) st'
  | (Raise e, st) => JobEnd ∅ (Some e) st
  end.

(** [find_emails]: whatever happened, [list(all_emails)]. *)
Definition find_emails (base_url : string) (max_subpages max_retries : Z)
  : result (list string) :=
  Ok (elements (job_emails (run_job base_url max_subpages max_retries))).

(** [worker] of [app.py], for any crawl function in place of
    [find_emails]: an exception of the crawl becomes the empty list. *)
Definition worker_of (crawl : string -> result (list string)) (url : string)
  : result (list string) :=
  match crawl url with
  | Ok emails => Ok emails
  | Raise _ => Ok []
  end.

(** [worker]: [find_emails(url)] with its defaults, [max_subpages=10] and
    [max_retries=2]. *)
Definition worker (url : string) : result (list string) :=
  worker_of (fun url => find_emails url 10 2) url.

(** For the statements: [subs] are the links found on a page that the
    network gave for [url]. *)
Definition found_on (url : string) (subs : list string) : Prop :=
  exists k sp found,
    net k url = Rendered sp
    /\ find_subpage_urls sp url = Ok found
    /\ subs = elements found.

End Crawler.

(* ===================================================================== *)
(** ** Links, for the statements about the discoverer *)

Section Links.
Variable urljoin : string -> string -> result string.
Variable urlparse : string -> result parsed_url.

(** The link [a] of a page at [base_url] resolves to [u], a URL of the
    host [base_netloc] with scheme http or https, and a keyword is in
    its text or in the path of [u]. *)
Definition candidate (base_netloc base_url : string) (a : a_tag)
    (u : string) : Prop :=
  exists parsed,
    urljoin base_url (href a) = Ok u
    /\ urlparse u = Ok parsed
    /\ has_keyword (Str.lower (Str.strip (link_text a)))
       || has_keyword (Str.lower (path parsed)) = true
    /\ netloc parsed = base_netloc
    /\ (scheme parsed = "http"%string \/ scheme parsed = "https"%string).

(** The link [a] can be resolved and parsed. *)
Definition resolvable (base_url : string) (a : a_tag) : Prop :=
  exists u parsed, urljoin base_url (href a) = Ok u /\ urlparse u = Ok parsed.

End Links.

(* ===================================================================== *)
(** ** Worker sizing *)

(** [min(a, b, c)] *)
Definition min3 (a b c : Z) : Z := Z.min (Z.min a b) c.

(** [get_optimal_workers], with the value of
    [multiprocessing.cpu_count()] as a parameter. *)
Definition get_optimal_workers (cpu_count file_size : Z) : Z :=
  if file_size <=? 100 then min3 cpu_count 4 file_size
  else if file_size <=? 300 then min3 cpu_count 8 file_size
  else min3 (cpu_count * 2) 16 file_size.

(* ===================================================================== *)
(** ** What a log shows *)

(** The URLs requested, one entry per [session.get]. *)
Definition gets (l : list event) : list string :=
  omap (fun e => match e with Get url _ => Some url | _ => None end) l.

(** The URLs whose fetch was started: one entry per first try. *)
Definition fetches (l : list event) : list string :=
  omap (fun e => match e with
                 | Get url attempt => if attempt =? 0 then Some url else None
                 | _ => None
                 end) l.

(** The number of polite delays. *)
Definition delays (l : list event) : nat :=
  length (omap (fun e => match e with PoliteDelay => Some e | _ => None end) l).

(** The sleeps between tries. *)
Definition backoffs (l : list event) : list Z :=
  omap (fun e => match e with Backoff s => Some s | _ => None end) l.

Definition count_of (url : string) (urls : list string) : nat :=
  length (filter (fun u => u = url) urls).

(** The state of a job is consistent when no fetch was started twice and
    every URL whose fetch was started is in the visited set. *)
Definition consistent (st : job_state) : Prop :=
  NoDup (fetches (log st))
  /\ (forall u, u ∈ fetches (log st) -> u ∈ visited_urls st).

(** The requested URLs are all in the visited set. *)
Definition requested_visited (st : job_state) : Prop :=
  forall u, u ∈ gets (log st) -> u ∈ visited_urls st.

(** Every request of the log is a first try. *)
Definition single_tries (st : job_state) : Prop :=
  gets (log st) = fetches (log st).

(** The pages other than the seed whose fetch was started. *)
Definition subpages_fetched (seed : string) (l : list event) : list string :=
  filter (fun u => u <> seed) (fetches l).

(** What try [k] of a fetch leaves in the log when it fails: the request,
    and the sleep of [2 * (k + 1)] seconds unless it was the last try. *)
Definition failed_try (url : string) (max_retries k : Z) : list event :=
  Get url k :: (if k <? max_retries - 1 then [Backoff (2 * (k + 1))] else []).

(** The log of a fetch all of whose tries fail. *)
Definition retry_log (url : string) (max_retries : Z) : list event :=
  flat_map (failed_try url max_retries) (seqZ 0 max_retries).

(** The log of a fetch whose first [j] tries fail and whose next try is
    answered: each failed try is followed by its sleep. *)
Definition recovered_log (url : string) (j : nat) : list event :=
  flat_map (fun k => [Get url k; Backoff (2 * (k + 1))]) (seqZ 0 (Z.of_nat j))
  ++ [Get url (Z.of_nat j)].

(** The number of requests, among those for [urls] made in this order
    from request [k] on, that the network answers with a page. *)
Fixpoint successes (net : nat -> string -> fetch_outcome) (k : nat)
    (urls : list string) : nat :=
  match urls with
  | [] => O
  | u :: rest =>
      ((match net k u with Rendered _ => 1 | Failed _ => 0 end)
       + successes net (S k) rest)%nat
  end.

(* ===================================================================== *)
(** ** Instances of the parameters, for the examples

    [urljoin] of an absolute link is the link; [simple_urlparse] splits
    [scheme://host/path]. Both are what [urllib.parse] returns on the
    URLs of the examples, which are absolute and have neither query nor
    fragment. *)

Fixpoint split_at_slashes (l : list ascii) (acc : list ascii)
  : list ascii * list ascii :=
  match l with
  | ":"%char :: "/"%char :: "/"%char :: rest => (rev acc, rest)
  | c :: rest => split_at_slashes rest (c :: acc)
  | [] => (rev acc, [])
  end.

Fixpoint from_char (c : ascii) (l : list ascii) : list ascii :=
  match l with
  | [] => []
  | a :: l' => if Ascii.eqb a c then l else from_char c l'
  end.

Definition simple_urlparse (url : string) : result parsed_url :=
  let '(sch, rest) := split_at_slashes (Str.chars url) [] in
  Ok (ParsedUrl (Str.text sch) (Str.text (Str.before_char "/" rest))
        (Str.text (from_char "/" rest))).

Definition absolute_urljoin (base href : string) : result string := Ok href.

(** A site whose home page links ten contact pages; each of them links a
    page that the home page does not. *)
Definition contact_links : list a_tag :=
  map (fun d => ATag ("https://site.test/contact" +:+ d) "Contact")
    ["0"; "1"; "2"; "3"; "4"; "5"; "6"; "7"; "8"; "9"]%string.

Definition home_page : soup := Soup contact_links ["Welcome"%string] [].

Definition contact_page : soup :=
  Soup [ATag "https://site.test/about/staff" "About our staff"]
    ["Write to Sales@Site.test"%string] [].

(** Every request is answered. *)
Definition site_net (k : nat) (url : string) : fetch_outcome :=
  if String.eqb url "https://site.test" then Rendered home_page
  else Rendered contact_page.


(** No request is answered. *)
Definition dead_net (k : nat) (url : string) : fetch_outcome :=
  Failed RequestException.

(** A page that shows an address in its text and builds the same address,
    with capitals, in a script. *)
Definition script_page : soup :=
  Soup [] ["Contact: jane@acme.org"%string]
    ["var e = 'Jane' + '@' + 'Acme.org';"%string].

Definition script_net (k : nat) (url : string) : fetch_outcome :=
  Rendered script_page.

(* ===================================================================== *)
(** ** Column detection of [app.py] *)

Definition url_keywords : list string :=
  [ "website"; "url"; "websites"; "urls" ]%string.

(** [any(keyword in col.lower() for keyword in keywords)] *)
Definition names_urls (col : string) : bool :=
  existsb (fun keyword => Str.contains keyword (Str.lower col)) url_keywords.

(** [find_url_column], for column labels that are strings. *)
Fixpoint find_url_column (columns : list string) : option string :=
  match columns with
  | [] => None
  | col :: rest => if names_urls col then Some col else find_url_column rest
  end.

(* ===================================================================== *)
(** ** Shapes of strings, for the statements *)

Module Shapes.
Import Str.

(** [local@domain.tld]: a non-empty local part of [[a-zA-Z0-9._%+-]], a
    non-empty domain of [[a-zA-Z0-9.-]], a dot and two letters or more. *)
Definition email_shaped (l : list ascii) : Prop :=
  exists loc dom tld,
    l = loc ++ "@"%char :: dom ++ "."%char :: tld
    /\ loc <> [] /\ Forall (fun a => is_local_char (code a) = true) loc
    /\ dom <> [] /\ Forall (fun a => is_domain_char (code a) = true) dom
    /\ (2 <= length tld)%nat
    /\ Forall (fun a => is_letter (code a) = true) tld.

(** The whole string matches the pattern of [validate_email], as
    [re.match] with [^] and [$] decides it: [$] also holds before a
    newline that ends the string. *)
Definition matches_full_pattern (e : string) : Prop :=
  email_shaped (chars e)
  \/ exists l, chars e = l ++ ["010"%char] /\ email_shaped l.


(** [sub] occurs in [l]. *)
Definition occurs_in (sub l : list ascii) : Prop :=
  exists pre post, l = pre ++ sub ++ post.

(** A string that [lower] leaves as it is, and a set of such strings. *)
Definition lowercase (e : string) : Prop := lower e = e.
Definition all_lowercase (emails : gset string) : Prop :=
  forall e, e ∈ emails -> lowercase e.

(** The address that the mailto loop takes from a link. *)
Definition mailto_address (a : a_tag) : string :=
  lower (strip (remove_all "mailto:" (split_head "?" (href a)))).

(** A set of strings that the validator accepts. *)
Definition all_valid (emails : gset string) : Prop :=
  forall e, e ∈ emails -> validate_email e = true.

(** A quote character, and a run of whitespace. *)
Definition quote (a : ascii) : Prop := is_quote (code a) = true.
Definition whitespace (w : list ascii) : Prop :=
  Forall (fun a => is_space (code a) = true) w.

(** One fragment of the concatenation: a literal and the plus sign that
    follows it. *)
Definition fragment (qa qb : ascii) (body w w' : list ascii) : list ascii :=
  [qa] ++ body ++ [qb] ++ w ++ ["+"%char] ++ w'.

(** The text jane, at sign, acme.org as a concatenation of three string
    literals: any quote character at each of the six places, any
    whitespace on both sides of each plus sign. *)
Definition concat_occurrence (q1 q2 q3 q4 q5 q6 : ascii)
    (w1 w2 w3 w4 : list ascii) : list ascii :=
  [q1] ++ chars "jane" ++ [q2] ++ w1 ++ ["+"%char] ++ w2
  ++ [q3] ++ ["@"%char] ++ [q4] ++ w3 ++ ["+"%char] ++ w4
  ++ [q5] ++ chars "acme.org" ++ [q6].

End Shapes.

(* ===================================================================== *)
(** * Properties *)

(** ** Strings *)

Module StrFacts.
Import Str.

Lemma chars_text (l : list ascii) : chars (text l) = l.
Proof. apply list_ascii_of_string_of_list_ascii. Qed.

Lemma text_chars (s : string) : text (chars s) = s.
Proof. apply string_of_list_ascii_of_string. Qed.

Lemma starts_with_spec (p l : list ascii) :
  starts_with p l = true <-> exists post, l = p ++ post.
Proof.
  revert l. induction p as [|a p IH]; intros l; simpl.
  - split; [intros _; by exists l | done].
  - destruct l as [|b l].
    + split; [done | intros [post H]; discriminate].
    + rewrite andb_true_iff, IH. split.
      * intros [Hab [post ->]]. apply Ascii.eqb_eq in Hab as ->.
        by exists post.
      * intros [post H]. injection H as -> ->.
        split; [apply Ascii.eqb_refl | by exists post].
Qed.

Lemma contains_chars_spec (sub l : list ascii) :
  contains_chars sub l = true <-> exists pre post, l = pre ++ sub ++ post.
Proof.
  induction l as [|b l IH]; simpl.
  - rewrite orb_false_r, starts_with_spec. split.
    + intros [post H]. by exists [], post.
    + intros [pre [post H]]. destruct pre; [by exists post | discriminate].
  - rewrite orb_true_iff, starts_with_spec, IH. split.
    + intros [[post H] | [pre [post H]]].
      * by exists [], post.
      * exists (b :: pre), post. by rewrite H.
    + intros [pre [post H]]. destruct pre as [|c pre].
      * left. by exists post.
      * right. injection H as -> ->. by exists pre, post.
Qed.


Lemma before_char_split (c : ascii) (loc rest : list ascii) :
  ~ In c loc -> before_char c (loc ++ c :: rest) = loc.
Proof.
  induction loc as [|a loc IH]; simpl; intros Hn.
  - by rewrite Ascii.eqb_refl.
  - destruct (Ascii.eqb a c) eqn:E.
    + apply Ascii.eqb_eq in E. tauto.
    + f_equal. apply IH. tauto.
Qed.


End StrFacts.

(** ** The matcher finds only what the pattern describes *)

Module ReFacts.
Import Re.
Section Sound.
Context {A : Type}.
Implicit Types (s : list A) (p : pattern A).

Lemma run_le_length c cap s : (run c cap s <= length s)%nat.
Proof.
  revert cap. induction s as [|a s IH]; intros cap; simpl.
  - destruct cap as [[|n]|]; simpl; lia.
  - destruct cap as [[|n]|]; simpl; [lia | |]; destruct (c a); simpl;
      try lia; match goal with |- (S (run c ?k s) <= _)%nat =>
        specialize (IH k); lia end.
Qed.

Lemma run_le_cap c n s : (run c (Some n) s <= n)%nat.
Proof.
  revert n. induction s as [|a s IH]; intros [|n]; simpl; try lia.
  destruct (c a); [|lia]. specialize (IH n). simpl. lia.
Qed.

Lemma run_Forall c cap s : Forall (fun a => c a = true) (take (run c cap s) s).
Proof.
  revert cap. induction s as [|a s IH]; intros cap.
  - destruct cap as [[|n]|]; simpl; constructor.
  - destruct cap as [[|n]|]; simpl; [constructor | |];
      destruct (c a) eqn:E; simpl; try constructor; auto.
Qed.

Lemma backtrack_sound rest s l k taken :
  backtrack rest s l k = Some taken ->
  exists j taken', (l <= j <= k)%nat /\ taken = take j s :: taken'
                   /\ rest (drop j s) = Some taken'.
Proof.
  induction k as [|k IH]; simpl.
  - destruct (0 <? l)%nat eqn:E; [done|]. apply Nat.ltb_ge in E.
    destruct (rest (drop 0 s)) as [t|] eqn:R; [|done].
    intros [= <-]. exists O, t. split; [lia | done].
  - destruct (S k <? l)%nat eqn:E; [done|]. apply Nat.ltb_ge in E.
    destruct (rest (drop (S k) s)) as [t|] eqn:R.
    + intros [= <-]. exists (S k), t. split; [lia | done].
    + intros H. destruct (IH H) as (j & t & Hj & -> & Hr).
      exists j, t. split; [lia | done].
Qed.

Lemma match_here_sound p fin s taken :
  match_here p fin s = Some taken ->
  exists rest, s = concat taken ++ rest /\ fin rest = true
               /\ Forall2 fits p taken.
Proof.
  revert s taken. induction p as [|it p IH]; intros s taken; simpl.
  - destruct (fin s) eqn:F; [|done]. intros [= <-]. exists s.
    split; [done | split; [done | constructor]].
  - intros H. apply backtrack_sound in H as (j & t & Hj & -> & Hr).
    destruct (IH _ _ Hr) as (rest & Hs & Hf & Hall).
    exists rest. split; [|split; [done|]].
    + simpl. rewrite <- app_assoc, <- Hs. by rewrite take_drop.
    + constructor; [|done]. split; [|split].
      * replace j with (j `min` run (cls it) (hi it) s)%nat by lia.
        rewrite <- take_take. apply Forall_take, run_Forall.
      * pose proof (run_le_length (cls it) (hi it) s).
        rewrite length_take. lia.
      * intros n Hn. rewrite Hn in Hj. pose proof (run_le_cap (cls it) n s).
        rewrite length_take. lia.
Qed.

End Sound.
End ReFacts.

(** ** The matcher finds what is there, when the first try fits *)

Module ReSteps.
Import Re.
Section Steps.
Context {A : Type}.
Implicit Types (s : list A) (p : pattern A).

Lemma run_exact_cap c chunk s :
  Forall (fun a => c a = true) chunk ->
  run c (Some (length chunk)) (chunk ++ s) = length chunk.
Proof.
  induction 1 as [|a chunk Ha _ IH]; simpl; [by destruct s|].
  rewrite Ha. simpl. by rewrite IH.
Qed.

Lemma run_stop c chunk s :
  Forall (fun a => c a = true) chunk -> stops c s ->
  run c None (chunk ++ s) = length chunk.
Proof.
  intros Hall Hs. induction Hall as [|a chunk Ha _ IH]; simpl.
  - destruct s as [|b s]; [done|]. simpl in *. by rewrite Hs.
  - rewrite Ha. simpl. by rewrite IH.
Qed.

Lemma backtrack_first rest s l k taken :
  (l <= k)%nat -> rest (drop k s) = Some taken ->
  backtrack rest s l k = Some (take k s :: taken).
Proof.
  intros Hl Hr. destruct k; simpl in *.
  - assert ((0 <? l)%nat = false) as -> by (apply Nat.ltb_ge; lia).
    by rewrite Hr.
  - assert ((S k <? l)%nat = false) as -> by (apply Nat.ltb_ge; lia).
    by rewrite Hr.
Qed.

(** An item whose longest run is [chunk], followed by a rest of the
    pattern that matches right after it. *)
Lemma match_item it p fin chunk s taken :
  run (cls it) (hi it) (chunk ++ s) = length chunk ->
  (lo it <= length chunk)%nat ->
  match_here p fin s = Some taken ->
  match_here (it :: p) fin (chunk ++ s) = Some (chunk :: taken).
Proof.
  intros Hrun Hlo Hrest. simpl. rewrite Hrun.
  rewrite (backtrack_first _ _ _ _ taken); [| done |].
  - by rewrite take_app_length.
  - by rewrite drop_app_length.
Qed.


(** The scan passes over the characters it has to skip. *)
Lemma scan_skip p pre s :
  scan p (length pre) (pre ++ s) = scan p O s.
Proof. induction pre as [|a pre IH]; [done | apply IH]. Qed.

(** A match at the head of the text is the first result of the scan,
    which goes on right after it. *)
Lemma scan_match p m s taken :
  m <> [] -> match_here p anywhere (m ++ s) = Some taken ->
  concat taken = m ->
  scan p O (m ++ s) = taken :: scan p O s.
Proof.
  intros Hm Hmatch Hc. destruct m as [|a m]; [done|].
  change (scan p O ((a :: m) ++ s)) with
    (match match_here p anywhere ((a :: m) ++ s) with
     | Some taken => taken :: scan p (length (concat taken) - 1) (m ++ s)
     | None => scan p O (m ++ s)
     end).
  rewrite Hmatch, Hc. simpl. rewrite Nat.sub_0_r. by rewrite scan_skip.
Qed.

End Steps.
End ReSteps.

(** ** Character facts *)

Module CharFacts.
Import Str.

Lemma is_char_eq (n : N) (a : ascii) :
  is_char n (code a) = true -> a = ascii_of_N n.
Proof.
  unfold is_char, code. intros H. apply N.eqb_eq in H. rewrite <- H.
  symmetry. apply ascii_N_embedding.
Qed.

Lemma is_quote_cases (a : ascii) :
  is_quote (code a) = true -> a = "'"%char \/ a = ascii_of_N 34.
Proof.
  unfold is_quote. intros H. apply orb_true_iff in H as [H | H].
  - left. by apply (is_char_eq 39).
  - right. by apply (is_char_eq 34).
Qed.

End CharFacts.

(* ===================================================================== *)
(** ** Email validator *)

Module Validator.
Import Str Shapes.




Lemma run_capped (c : ascii -> bool) (n : nat) (chunk s : list ascii) :
  Forall (fun a => c a = true) chunk -> length chunk = n ->
  Re.run c (Some n) (chunk ++ s) = length chunk.
Proof. intros H <-. by apply ReSteps.run_exact_cap. Qed.



(** A chunk taken by an item for exactly one given character. *)
Lemma fits_one (n : N) (chunk : list ascii) :
  Re.fits (Pat.one code (is_char n)) chunk -> chunk = [ascii_of_N n].
Proof.
  intros (Hall & Hlo & Hhi). simpl in *. specialize (Hhi 1%nat eq_refl).
  destruct chunk as [|a [|b chunk]]; simpl in *; try lia.
  apply Forall_cons in Hall as [Ha _]. by rewrite (CharFacts.is_char_eq n a).
Qed.

Lemma dollar_cases (rest : list ascii) :
  Pat.dollar code rest = true -> rest = [] \/ rest = ["010"%char].
Proof.
  destruct rest as [|a [|b rest]]; simpl; intros H; [by left | | done].
  right. f_equal. by apply (CharFacts.is_char_eq 10).
Qed.

Lemma accepted_shape (e : string) :
  validate_email e = true -> matches_full_pattern e.
Proof.
  unfold validate_email.
  destruct (is_empty e || negb (contains "@" e)); [done|].
  destruct (existsb _ common_false_positives); [done|].
  destruct (Re.re_search _ _); [done|].
  intros H. apply bool_decide_eq_true in H as [taken H].
  apply ReFacts.match_here_sound in H as (rest & He & Hfin & Hall).
  unfold Pat.email_pattern in Hall.
  repeat match goal with
         | H : Forall2 _ (_ :: _) _ |- _ =>
             apply Forall2_cons_inv_l in H as (? & ? & ? & H & ->)
         | H : Forall2 _ [] _ |- _ => apply Forall2_nil_inv_l in H as ->
         end.
  repeat match goal with
         | H : Re.fits (Pat.one code (is_char _)) _ |- _ =>
             apply fits_one in H; subst
         end.
  match goal with
  | H1 : Re.fits (Pat.plus _ is_local_char) ?loc,
    H2 : Re.fits (Pat.plus _ is_domain_char) ?dom,
    H3 : Re.fits (Pat.at_least _ 2 is_letter) ?tld |- _ =>
      destruct H1 as (Hl1 & Hl2 & _); destruct H2 as (Hd1 & Hd2 & _);
      destruct H3 as (Ht1 & Ht2 & _);
      assert (email_shaped (loc ++ "@"%char :: dom ++ "."%char :: tld))
        as Hshape
  end.
  { eexists _, _, _. split; [reflexivity|]. simpl in *.
    repeat split; try done; intros ->; simpl in *; lia. }
  simpl in He. rewrite app_nil_r in He.
  apply dollar_cases in Hfin as [-> | ->].
  - left. rewrite He, app_nil_r. simpl. by rewrite <- ?app_assoc.
  - right. eexists. split; [|exact Hshape].
    rewrite He. simpl. by rewrite <- ?app_assoc.
Qed.

End Validator.




(** C7. With [c] units and a batch of [n] rows, the number of workers is
    min(c, 4, n) up to 100 rows, min(c, 8, n) above 100 and up to 300,
    and min(2c, 16, n) above 300; with 8 units: 4 workers for 50 rows, 8
    for 150 and 16 for 500. *)
Theorem get_optimal_workers_policy (c n : Z) :
  (n <= 100 -> get_optimal_workers c n = Z.min c (Z.min 4 n))
  /\ (100 < n <= 300 -> get_optimal_workers c n = Z.min c (Z.min 8 n))
  /\ (300 < n -> get_optimal_workers c n = Z.min (2 * c) (Z.min 16 n))
  /\ get_optimal_workers 8 50 = 4
  /\ get_optimal_workers 8 150 = 8
  /\ get_optimal_workers 8 500 = 16.
Proof.
  unfold get_optimal_workers, min3.
  repeat split; try reflexivity; intros H.
  - destruct (Z.leb_spec n 100); lia.
  - destruct (Z.leb_spec n 100); [lia|]. destruct (Z.leb_spec n 300); lia.
  - destruct (Z.leb_spec n 100); [lia|]. destruct (Z.leb_spec n 300); lia.
Qed.

Lemma get_optimal_workers_policy_witness :
  get_optimal_workers 2 80 = 2
  /\ get_optimal_workers 16 200 = 8
  /\ get_optimal_workers 4 1000 = 8.
Proof.
  split; [|split].
  - apply (proj1 (get_optimal_workers_policy 2 80)). lia.
  - apply (proj1 (proj2 (get_optimal_workers_policy 16 200))). lia.
  - apply (proj1 (proj2 (proj2 (get_optimal_workers_policy 4 1000)))). lia.
Defined.

(* ===================================================================== *)
(** ** Page fetcher and site crawler *)

Module LogFacts.

Lemma gets_app (l1 l2 : list event) : gets (l1 ++ l2) = gets l1 ++ gets l2.
Proof. apply omap_app. Qed.

Lemma fetches_app (l1 l2 : list event) :
  fetches (l1 ++ l2) = fetches l1 ++ fetches l2.
Proof. apply omap_app. Qed.

Lemma backoffs_app (l1 l2 : list event) :
  backoffs (l1 ++ l2) = backoffs l1 ++ backoffs l2.
Proof. apply omap_app. Qed.

Lemma fetches_sub_gets (l : list event) (u : string) :
  u ∈ fetches l -> u ∈ gets l.
Proof.
  unfold fetches, gets. rewrite !list_elem_of_omap.
  intros (e & He & H). exists e. split; [done|].
  destruct e as [url a| |]; try done. by destruct (a =? 0).
Qed.

Lemma count_of_cons (url u : string) (l : list string) :
  count_of url (u :: l)
  = ((if decide (u = url) then 1 else 0) + count_of url l)%nat.
Proof. unfold count_of. rewrite filter_cons. by destruct (decide (u = url)). Qed.

Lemma count_of_absent (url : string) (l : list string) :
  url ∉ l -> count_of url l = 0%nat.
Proof.
  induction l as [|u l IH]; [done|]. intros H.
  apply not_elem_of_cons in H as [Hne Hl].
  rewrite count_of_cons, IH by done. by rewrite decide_False.
Qed.

Lemma count_of_NoDup (url : string) (l : list string) :
  NoDup l -> (count_of url l <= 1)%nat.
Proof.
  induction 1 as [|u l Hu Hl IH]; [unfold count_of; simpl; lia|].
  rewrite count_of_cons. destruct (decide (u = url)) as [->|]; [|done].
  rewrite count_of_absent by done. lia.
Qed.

Lemma count_of_app (url : string) (l1 l2 : list string) :
  count_of url (l1 ++ l2) = (count_of url l1 + count_of url l2)%nat.
Proof. unfold count_of. by rewrite filter_app, length_app. Qed.

End LogFacts.

Module CrawlFacts.
Import LogFacts.
Section Facts.
Variable urljoin : string -> string -> result string.
Variable urlparse : string -> result parsed_url.
Variable net : nat -> string -> fetch_outcome.

#[local] Abbreviation retry := (attempts urljoin urlparse net).
#[local] Abbreviation process := (process_url urljoin urlparse net).
#[local] Abbreviation drain_loop := (drain urljoin urlparse net).
#[local] Abbreviation job := (run_job urljoin urlparse net).

(** *** The retry loop *)

Lemma attempts_all_fail (url : string) (max_retries : Z) (n : nat) (a : Z)
    (st : job_state) :
  (forall k, net k url = Failed RequestException) ->
  exists st',
    retry url max_retries n a st = (Ok (∅, []), st')
    /\ visited_urls st' = visited_urls st
    /\ log st' = log st
                 ++ flat_map (failed_try url max_retries) (seqZ a (Z.of_nat n)).
Proof.
  intros Hfail. revert a st. induction n as [|n IH]; intros a st.
  - exists st. simpl. by rewrite app_nil_r.
  - cbn [attempts]. rewrite Hfail.
    match goal with |- context [retry _ _ n _ ?s] =>
      destruct (IH (a + 1) s) as (st' & -> & Hv & Hl) end.
    exists st'. split; [done|]. split.
    + rewrite Hv. by destruct (a <? max_retries - 1).
    + rewrite Hl. rewrite (seqZ_cons a) by lia. simpl.
      replace (Z.succ a) with (a + 1) by lia.
      replace (Z.pred (Z.of_nat (S n))) with (Z.of_nat n) by lia.
      unfold failed_try at 2.
      destruct (a <? max_retries - 1); simpl; by rewrite <- !app_assoc.
Qed.

Lemma failed_try_gets (url : string) (max_retries : Z) (ks : list Z) :
  gets (flat_map (failed_try url max_retries) ks) = replicate (length ks) url.
Proof.
  induction ks as [|k ks IH]; [done|]. simpl.
  destruct (k <? max_retries - 1); simpl; by rewrite <- IH.
Qed.

Lemma failed_try_backoffs (url : string) (max_retries : Z) (ks : list Z) :
  backoffs (flat_map (failed_try url max_retries) ks)
  = (fun k => 2 * (k + 1)) <$> filter (fun k => k < max_retries - 1) ks.
Proof.
  induction ks as [|k ks IH]; [done|].
  change (flat_map (failed_try url max_retries) (k :: ks))
    with (failed_try url max_retries k
          ++ flat_map (failed_try url max_retries) ks).
  rewrite backoffs_app, IH, filter_cons. unfold failed_try.
  destruct (Z.ltb_spec k (max_retries - 1)).
  - by rewrite decide_True.
  - by rewrite decide_False by lia.
Qed.

(** What a run of the retry loop does: it leaves the visited set alone,
    asks for [url] only, starts at most one fetch, and the subpages it
    returns were found on a page the network gave for [url]. *)
Lemma attempts_effect (url : string) (max_retries : Z) (n : nat) (a : Z)
    (st st' : job_state) (r : result (gset string * list string)) :
  0 <= a -> retry url max_retries n a st = (r, st') ->
  visited_urls st' = visited_urls st
  /\ (exists evs,
        log st' = log st ++ evs
        /\ (forall u, u ∈ gets evs -> u = url)
        /\ fetches evs = if (a =? 0) && (0 <? n)%nat then [url] else [])
  /\ (forall emails subs, r = Ok (emails, subs) ->
        subs = [] \/ found_on urljoin urlparse net url subs).
Proof.
  revert a st. induction n as [|n IH]; intros a st Ha.
  - simpl. intros [= <- <-]. split; [done|]. split.
    + exists []. rewrite app_nil_r, andb_false_r. split; [done|]. split; [|done].
      intros u Hu. by apply elem_of_nil in Hu.
    + intros emails subs [= <- <-]. by left.
  - cbn [attempts].
    assert (fetches [Get url a] = if a =? 0 then [url] else []) as Hone
      by (simpl; by destruct (a =? 0)).
    assert (forall u, u ∈ gets [Get url a] -> u = url) as Hget
      by (simpl; intros u Hu; by apply list_elem_of_singleton in Hu).
    destruct (net (requests st) url) as [sp | e] eqn:Hnet.
    + intros [= <- <-]. split; [done|]. split.
      * exists [Get url a]. simpl log. rewrite andb_true_r. by split.
      * intros emails subs H. right.
        destruct (extract_emails sp) as [em|]; [|done].
        simpl in H.
        destruct (find_subpage_urls urljoin urlparse sp url) as [found|] eqn:F;
          [|done].
        simpl in H. injection H as <- <-. by exists (requests st), sp, found.
    + destruct e.
      2,3,4: (intros [= <- <-]; split; [done|]; split; [|done];
              exists [Get url a]; simpl log; rewrite andb_true_r; by split).
      intros H. apply IH in H as (Hv & (evs & Hl & Hg & Hf) & Hs); [|lia].
      split; [rewrite Hv; by destruct (a <? max_retries - 1)|].
      split; [|done].
      assert ((a + 1 =? 0) = false) as E by lia.
      rewrite E in Hf. simpl in Hf.
      destruct (a <? max_retries - 1); simpl log in Hl.
      * exists ([Get url a; Backoff (2 * (a + 1))] ++ evs).
        split; [rewrite Hl; by rewrite <- !app_assoc|]. split.
        -- intros u. rewrite gets_app. intros Hu.
           apply elem_of_app in Hu as [Hu | Hu]; [|by apply Hg].
           simpl in Hu. by apply list_elem_of_singleton in Hu.
        -- rewrite fetches_app, Hf, app_nil_r, andb_true_r.
           simpl. by destruct (a =? 0).
      * exists ([Get url a] ++ evs).
        split; [rewrite Hl; by rewrite <- !app_assoc|]. split.
        -- intros u. rewrite gets_app. intros Hu.
           apply elem_of_app in Hu as [Hu | Hu]; [by apply Hget | by apply Hg].
        -- by rewrite fetches_app, Hf, app_nil_r, andb_true_r.
Qed.

(** *** One page *)

Lemma process_visited (url : string) (max_retries : Z) (st : job_state) :
  url ∈ visited_urls st -> process url max_retries st = (Ok (∅, []), st).
Proof. intros H. unfold process_url. by rewrite bool_decide_eq_true_2. Qed.

Lemma process_fresh (url : string) (max_retries : Z) (st st' : job_state)
    (r : result (gset string * list string)) :
  url ∉ visited_urls st -> process url max_retries st = (r, st') ->
  visited_urls st' = {[ url ]} ∪ visited_urls st
  /\ (exists evs,
        log st' = log st ++ evs
        /\ (forall u, u ∈ gets evs -> u = url)
        /\ fetches evs = if 0 <? max_retries then [url] else [])
  /\ (forall emails subs, r = Ok (emails, subs) ->
        subs = [] \/ found_on urljoin urlparse net url subs).
Proof.
  intros Hfresh. unfold process_url. rewrite bool_decide_eq_false_2 by done.
  intros H. apply attempts_effect in H as (Hv & (evs & Hl & Hg & Hf) & Hs);
    [|lia].
  split; [done|]. split; [|done]. exists evs. split; [done|]. split; [done|].
  rewrite Hf. simpl.
  destruct (Z.ltb_spec 0 max_retries), (Nat.ltb_spec 0 (Z.to_nat max_retries));
    (done || lia).
Qed.

Lemma process_consistent (url : string) (max_retries : Z)
    (st st' : job_state) (r : result (gset string * list string)) :
  consistent st -> process url max_retries st = (r, st') -> consistent st'.
Proof.
  intros [Hnd Hsub] H. destruct (decide (url ∈ visited_urls st)) as [Hin | Hout].
  - rewrite process_visited in H by done. by injection H as <- <-.
  - apply process_fresh in H as (Hv & (evs & Hl & _ & Hf) & _); [|done].
    unfold consistent. rewrite Hl, Hv, fetches_app, Hf.
    destruct (0 <? max_retries).
    + split.
      * apply NoDup_app. split; [done|]. split; [|apply NoDup_singleton].
        intros u Hu Hu'. apply list_elem_of_singleton in Hu' as ->. auto.
      * intros u Hu. apply elem_of_union.
        apply elem_of_app in Hu as [Hu | Hu]; [right; auto|].
        left. apply list_elem_of_singleton in Hu as ->.
        by apply elem_of_singleton.
    + rewrite app_nil_r. split; [done|]. intros u Hu.
      apply elem_of_union. right. auto.
Qed.

Lemma delay_consistent (st : job_state) :
  consistent st -> consistent (record PoliteDelay st).
Proof.
  unfold consistent. simpl. rewrite fetches_app. simpl.
  by rewrite app_nil_r.
Qed.

(** *** The loop over the frontier *)



Lemma no_new_fetch (st : job_state) (bound : nat) :
  exists new, fetches (log st) = fetches (log st) ++ new
              /\ (length new <= bound)%nat.
Proof. exists []. rewrite app_nil_r. split; [done | simpl; lia]. Qed.

Lemma drain_effect (max_subpages max_retries : Z) (frontier : list string)
    (pv : Z) (em : gset string) (st st' : job_state) (fin : loop_end) :
  drain_loop max_subpages max_retries frontier pv em st = (fin, st') ->
  (consistent st -> consistent st')
  /\ (forall u, u ∈ gets (log st') -> u ∈ gets (log st) \/ u ∈ frontier)
  /\ (exists new,
        fetches (log st') = fetches (log st) ++ new
        /\ (length new <= Z.to_nat (max_subpages - pv))%nat).
Proof.
  revert pv em st. induction frontier as [|u rest IH]; intros pv em st.
  - simpl. intros [= <- <-].
    split; [done|]. split; [by left | apply no_new_fetch].
  - simpl. destruct (Z.ltb_spec pv max_subpages) as [Hpv | Hpv].
    2: { intros [= <- <-].
         split; [done|]. split; [by left | apply no_new_fetch]. }
    destruct (decide (u ∈ visited_urls st)) as [Hin | Hout].
    + rewrite bool_decide_eq_true_2 by done. intros H.
      apply IH in H as (Hc & Hg & Hn).
      split; [done|]. split; [|done].
      intros v Hv. destruct (Hg v Hv); [by left|]. right. by right.
    + rewrite bool_decide_eq_false_2 by done.
      destruct (process u max_retries (record PoliteDelay st))
        as [r st1] eqn:Hp.
      apply process_fresh in Hp as Hp'; [|done].
      destruct Hp' as (Hv1 & (evs & Hl & Hg1 & Hf1) & _).
      simpl log in Hl.
      assert (forall v, v ∈ gets (log st1) ->
                        v ∈ gets (log st) \/ v ∈ u :: rest) as Hgets1.
      { intros v. rewrite Hl, !gets_app. simpl. rewrite app_nil_r.
        intros Hv. apply elem_of_app in Hv as [Hv | Hv]; [by left|].
        right. rewrite (Hg1 v Hv). by left. }
      assert (exists one, fetches (log st1) = fetches (log st) ++ one
                          /\ (length one <= 1)%nat) as (one & Hone & Hlen1).
      { exists (fetches evs). rewrite Hl, !fetches_app. simpl.
        rewrite app_nil_r. split; [done|]. rewrite Hf1.
        destruct (0 <? max_retries); simpl; lia. }
      assert (consistent st -> consistent st1) as Hcons1.
      { intros Hc. eapply process_consistent; [|exact Hp].
        by apply delay_consistent. }
      destruct r as [[emails subs] | e].
      * intros H. apply IH in H as (Hc & Hg & (new & Hn & Hlen)).
        split; [auto|]. split.
        -- intros v Hv. destruct (Hg v Hv) as [Hv' | Hv'];
             [by apply Hgets1 | right; by right].
        -- exists (one ++ new). rewrite Hn, Hone, <- app_assoc.
           split; [done|]. rewrite length_app. lia.
      * intros [= <- <-]. split; [done|]. split; [done|].
        exists one. split; [done | lia].
Qed.

(** *** The job *)

Lemma initial_consistent : consistent initial_state.
Proof.
  split; [apply NoDup_nil_2|]. intros u Hu. by apply elem_of_nil in Hu.
Qed.

Lemma job_effect (base_url : string) (max_subpages max_retries : Z) :
  let st := job_state_end (job base_url max_subpages max_retries) in
  consistent st
  /\ (forall u, u ∈ gets (log st) ->
        u = normalize base_url
        \/ exists subs, found_on urljoin urlparse net (normalize base_url) subs
                        /\ u ∈ subs)
  /\ (length (subpages_fetched (normalize base_url) (log st))
      <= Z.to_nat (max_subpages - 1))%nat.
Proof.
  unfold run_job, subpages_fetched.
  destruct (process (normalize base_url) max_retries initial_state)
    as [r st1] eqn:Hp.
  pose proof (process_consistent _ _ _ _ _ initial_consistent Hp) as Hc1.
  apply process_fresh in Hp as (_ & (evs & Hl & Hg & Hf) & Hs);
    [|apply not_elem_of_empty].
  simpl in Hl. subst evs.
  assert (filter (fun u => u <> normalize base_url) (fetches (log st1)) = [])
    as Hseed.
  { rewrite Hf. destruct (0 <? max_retries); [|done].
    rewrite filter_cons, decide_False; [done | tauto]. }
  destruct r as [[emails subs] | e]; simpl.
  - destruct (drain_loop max_subpages max_retries subs 1 (∅ ∪ emails) st1)
      as [fin st2] eqn:Hd.
    apply drain_effect in Hd as (Hc & Hgets & (new & Hn & Hlen)). simpl.
    split; [auto|]. split.
    2: { rewrite Hn, filter_app, Hseed. simpl.
         pose proof (length_filter (fun u => u <> normalize base_url) new).
         lia. }
    intros u Hu. destruct (Hgets u Hu) as [Hu1 | Hu1]; [left; auto|].
    right. exists subs. split; [|done].
    destruct (Hs emails subs eq_refl) as [-> | Hfound]; [|done].
    by apply elem_of_nil in Hu1.
  - split; [done|]. split; [|rewrite Hseed; simpl; lia].
    intros u Hu. left. auto.
Qed.

(** *** The log of a fetch that gives up *)

Lemma retry_log_gets (url : string) (max_retries : Z) :
  gets (retry_log url max_retries) = replicate (Z.to_nat max_retries) url.
Proof. unfold retry_log. by rewrite failed_try_gets, length_seqZ. Qed.

Lemma retry_backoffs_from (url : string) (max_retries : Z) (n : nat) (a : Z) :
  a + Z.of_nat n = max_retries ->
  backoffs (flat_map (failed_try url max_retries) (seqZ a (Z.of_nat n)))
  = (fun k => 2 * k) <$> seqZ (a + 1) (Z.of_nat n - 1).
Proof.
  revert a. induction n as [|n IH]; intros a Ha; [done|].
  rewrite (seqZ_cons a) by lia.
  replace (Z.pred (Z.of_nat (S n))) with (Z.of_nat n) by lia.
  replace (Z.succ a) with (a + 1) by lia.
  change (flat_map ?f (?k :: ?ks)) with (f k ++ flat_map f ks).
  rewrite backoffs_app, IH by lia. unfold failed_try.
  destruct (Z.ltb_spec a (max_retries - 1)).
  - rewrite (seqZ_cons (a + 1) (Z.of_nat (S n) - 1)) by lia. simpl.
    do 3 f_equal; lia.
  - assert (n = O) as -> by lia. done.
Qed.

Lemma retry_log_backoffs (url : string) (max_retries : Z) :
  backoffs (retry_log url max_retries)
  = (fun k => 2 * k) <$> seqZ 1 (max_retries - 1).
Proof.
  unfold retry_log. destruct (Z.le_gt_cases 0 max_retries) as [H | H].
  - rewrite <- (Z2Nat.id max_retries) at 2 by done.
    rewrite retry_backoffs_from by lia. do 2 f_equal. lia.
  - unfold seqZ. by rewrite !Z2Nat.nonpos by lia.
Qed.

Lemma process_all_fail (url : string) (max_retries : Z) (st : job_state) :
  url ∉ visited_urls st ->
  (forall k, net k url = Failed RequestException) ->
  exists st',
    process url max_retries st = (Ok (∅, []), st')
    /\ visited_urls st' = {[ url ]} ∪ visited_urls st
    /\ log st' = log st ++ retry_log url max_retries.
Proof.
  intros Hfresh Hfail. unfold process_url.
  rewrite bool_decide_eq_false_2 by done.
  destruct (attempts_all_fail url max_retries (Z.to_nat max_retries) 0
              (mark_visited url st) Hfail) as (st' & -> & Hv & Hl).
  exists st'. split; [done|]. split; [done|].
  rewrite Hl. unfold retry_log, seqZ. by rewrite Nat2Z.id.
Qed.

Lemma count_of_present (url : string) (l : list string) :
  url ∈ l -> (1 <= count_of url l)%nat.
Proof.
  intros H. apply list_elem_of_split in H as (l1 & l2 & ->).
  rewrite count_of_app, count_of_cons, decide_True by done. lia.
Qed.

(** *** Without failures there is no second try *)

Section NoRetry.
Hypothesis no_failure : forall k u, net k u <> Failed RequestException.

Lemma attempts_no_retry (url : string) (max_retries : Z) (n : nat) (a : Z)
    (st st' : job_state) (r : result (gset string * list string)) :
  retry url max_retries n a st = (r, st') ->
  log st' = log st ++ (if (0 <? n)%nat then [Get url a] else []).
Proof.
  destruct n as [|n]; simpl.
  - intros [= <- <-]. by rewrite app_nil_r.
  - destruct (net (requests st) url) as [sp | e] eqn:Hnet.
    + by intros [= <- <-].
    + destruct e; [by apply no_failure in Hnet | | |]; by intros [= <- <-].
Qed.

Lemma process_no_retry (url : string) (max_retries : Z)
    (st st' : job_state) (r : result (gset string * list string)) :
  process url max_retries st = (r, st') ->
  single_tries st -> single_tries st'.
Proof.
  unfold process_url, single_tries.
  destruct (bool_decide (url ∈ visited_urls st)); [by intros [= <- <-]|].
  intros H Hst. apply attempts_no_retry in H. rewrite H. simpl log.
  rewrite gets_app, fetches_app, Hst. by destruct (0 <? _)%nat.
Qed.

Lemma drain_no_retry (max_subpages max_retries : Z) (frontier : list string)
    (pv : Z) (em : gset string) (st st' : job_state) (fin : loop_end) :
  drain_loop max_subpages max_retries frontier pv em st = (fin, st') ->
  single_tries st -> single_tries st'.
Proof.
  revert pv em st. induction frontier as [|u rest IH]; intros pv em st; simpl.
  - by intros [= <- <-].
  - destruct (pv <? max_subpages); [|by intros [= <- <-]].
    destruct (bool_decide (u ∈ visited_urls st)); [apply IH|].
    destruct (process u max_retries (record PoliteDelay st))
      as [r st1] eqn:Hp.
    intros H Hst.
    assert (single_tries st1) as Hst1.
    { apply (process_no_retry _ _ _ _ _ Hp). unfold single_tries in *.
      simpl. by rewrite gets_app, fetches_app, Hst. }
    destruct r as [[emails subs] | e]; [by apply IH in H|].
    by injection H as _ <-.
Qed.

Lemma job_no_retry (base_url : string) (max_subpages max_retries : Z) :
  single_tries (job_state_end (job base_url max_subpages max_retries)).
Proof.
  unfold run_job.
  destruct (process (normalize base_url) max_retries initial_state)
    as [r st1] eqn:Hp.
  assert (single_tries st1) as Hst1
    by (by apply (process_no_retry _ _ _ _ _ Hp)).
  destruct r as [[emails subs] | e]; [|done].
  destruct (drain_loop max_subpages max_retries subs 1 (∅ ∪ emails) st1)
    as [fin st2] eqn:Hd.
  simpl. by apply (drain_no_retry _ _ _ _ _ _ _ _ Hd).
Qed.

End NoRetry.

End Facts.
End CrawlFacts.

(* ===================================================================== *)
(** ** The claims about the page fetcher and the site crawler *)

Section CrawlerClaims.
Variable urljoin : string -> string -> result string.
Variable urlparse : string -> result parsed_url.
Variable net : nat -> string -> fetch_outcome.

(** C3, amended. When every request for a URL fails at the network
    level, the fetch routine makes exactly [max_retries] tries in all
    (none when [max_retries] is not positive), sleeps [2 * k] seconds
    after the failed try number [k] unless it was the last, then gives
    up and returns an empty page result without raising. *)
Theorem process_url_gives_up (url : string) (max_retries : Z)
    (st : job_state) :
  url ∉ visited_urls st ->
  (forall k, net k url = Failed RequestException) ->
  exists st',
    process_url urljoin urlparse net url max_retries st = (Ok (∅, []), st')
    /\ log st' = log st ++ retry_log url max_retries
    /\ gets (retry_log url max_retries)
       = replicate (Z.to_nat max_retries) url
    /\ backoffs (retry_log url max_retries)
       = (fun k => 2 * k) <$> seqZ 1 (max_retries - 1).
Proof.
  intros Hfresh Hfail.
  destruct (CrawlFacts.process_all_fail urljoin urlparse net url max_retries
              st Hfresh Hfail) as (st' & Hp & _ & Hl).
  exists st'. split; [done|]. split; [done|]. split.
  - apply CrawlFacts.retry_log_gets.
  - apply CrawlFacts.retry_log_backoffs.
Qed.

(** C8. In one job no URL has its fetch started twice (a fetch is one
    run of the fetch routine, with the retries of a failed request), so
    a job in which no request fails asks for no URL twice. The loop over
    the frontier starts the fetch of no URL twice whatever the frontier
    holds, repetitions included; and when a
    URL that was not visited is at the head of the frontier, with budget
    left and at least one try allowed, its fetch is started exactly
    once, however often the URL comes again in the frontier. *)
Theorem url_fetched_once :
  (forall base_url max_subpages max_retries url,
     (count_of url
        (fetches (log (job_state_end
           (run_job urljoin urlparse net base_url max_subpages max_retries))))
      <= 1)%nat)
  /\ ((forall k u, net k u <> Failed RequestException) ->
      forall base_url max_subpages max_retries url,
        (count_of url
           (gets (log (job_state_end
              (run_job urljoin urlparse net base_url max_subpages
                 max_retries))))
         <= 1)%nat)
  /\ (forall max_subpages max_retries frontier pv em st url,
        consistent st ->
        (count_of url
           (fetches (log (drain urljoin urlparse net max_subpages
                            max_retries frontier pv em st).2)) <= 1)%nat)
  /\ (forall max_subpages max_retries u rest pv em st,
        consistent st -> u ∉ visited_urls st ->
        pv < max_subpages -> 0 < max_retries ->
        count_of u
          (fetches (log (drain urljoin urlparse net max_subpages max_retries
                           (u :: rest) pv em st).2)) = 1%nat).
Proof.
  split; [|split; [|split]].
  - intros base_url max_subpages max_retries url.
    apply LogFacts.count_of_NoDup.
    apply (CrawlFacts.job_effect urljoin urlparse net).
  - intros Hnf base_url max_subpages max_retries url.
    rewrite (CrawlFacts.job_no_retry urljoin urlparse net Hnf).
    apply LogFacts.count_of_NoDup.
    apply (CrawlFacts.job_effect urljoin urlparse net).
  - intros max_subpages max_retries frontier pv em st url Hc.
    destruct (drain urljoin urlparse net max_subpages max_retries
                frontier pv em st) as [fin st'] eqn:Hd.
    simpl snd. apply LogFacts.count_of_NoDup.
    by apply (CrawlFacts.drain_effect _ _ _ _ _ _ _ _ _ _ _ Hd).
  - intros max_subpages max_retries u rest pv em st Hc Hu Hpv Hmr.
    destruct (drain urljoin urlparse net max_subpages max_retries
                (u :: rest) pv em st) as [fin st'] eqn:Hd.
    simpl snd. apply Nat.le_antisymm.
    + apply LogFacts.count_of_NoDup.
      by apply (CrawlFacts.drain_effect _ _ _ _ _ _ _ _ _ _ _ Hd).
    + apply CrawlFacts.count_of_present.
      simpl in Hd. rewrite bool_decide_eq_false_2 in Hd by done.
      assert ((pv <? max_subpages) = true) as E by lia. rewrite E in Hd.
      destruct (process_url urljoin urlparse net u max_retries
                  (record PoliteDelay st)) as [r st1] eqn:Hp.
      apply CrawlFacts.process_fresh in Hp
        as (_ & (evs & Hl & _ & Hf) & _); [|done].
      assert ((0 <? max_retries) = true) as E' by lia. rewrite E' in Hf.
      assert (u ∈ fetches (log st1)) as Hin.
      { rewrite Hl, LogFacts.fetches_app, Hf. apply elem_of_app. right.
        by apply list_elem_of_singleton. }
      destruct r as [[emails subs] | e].
      * apply CrawlFacts.drain_effect in Hd as (_ & _ & (new & -> & _)).
        apply elem_of_app. by left.
      * by injection Hd as _ <-.
Qed.

(** C9. Every URL that a job requests is the seed or a link found on a
    page that the network gave for the seed. What a subpage links is
    dropped: on the example site each contact page links a staff page,
    and the job, with budget left, never asks for it. *)
Theorem only_seed_links_fetched (base_url : string)
    (max_subpages max_retries : Z) :
  (forall url,
     url ∈ gets (log (job_state_end
              (run_job urljoin urlparse net base_url max_subpages
                 max_retries))) ->
     url = normalize base_url
     \/ exists k sp found,
          net k (normalize base_url) = Rendered sp
          /\ find_subpage_urls urljoin urlparse sp (normalize base_url)
             = Ok found
          /\ url ∈ found)
  /\ ((exists found,
         find_subpage_urls absolute_urljoin simple_urlparse contact_page
           "https://site.test/contact7" = Ok found
         /\ "https://site.test/about/staff"%string ∈ found)
      /\ ~ In "https://site.test/about/staff"%string
            (gets (log (job_state_end
               (run_job absolute_urljoin simple_urlparse site_net
                  "site.test" 20 2))))).
Proof.
  split.
  - intros url H.
    destruct (CrawlFacts.job_effect urljoin urlparse net base_url
                max_subpages max_retries) as (_ & Hg & _).
    destruct (Hg url H)
      as [-> | (subs & (k & sp & found & Hk & Hf & ->) & Hu)]; [by left|].
    right. exists k, sp, found. split; [done|]. split; [done|].
    by apply elem_of_elements.
  - split.
    + eexists. split; [reflexivity|].
      apply elem_of_union. left. by apply elem_of_singleton.
    + vm_compute. intros H.
      repeat (destruct H as [H | H]; [discriminate H|]). exact H.
Qed.

End CrawlerClaims.

Section BudgetAndBoundary.
Variable urljoin : string -> string -> result string.
Variable urlparse : string -> result parsed_url.
Variable net : nat -> string -> fetch_outcome.


(** C4. The worker never raises, whatever the network does and whatever
    the URL is: it returns a list. When every request for the seed
    fails, with whatever exception, the list is empty. And whatever may
    stand for the crawl, an exception of the crawl becomes the empty
    list, a list that the crawl returns is returned as it is. *)
Theorem worker_never_raises (url : string) :
  (exists emails, worker urljoin urlparse net url = Ok emails)
  /\ ((forall k, exists e, net k (normalize url) = Failed e) ->
      worker urljoin urlparse net url = Ok [])
  /\ (forall crawl,
        (exists emails, worker_of crawl url = Ok emails)
        /\ (forall e, crawl url = Raise e -> worker_of crawl url = Ok [])
        /\ (forall emails, crawl url = Ok emails ->
                           worker_of crawl url = Ok emails)).
Proof.
  split; [by eexists|]. split.
  - intros Hfail. unfold worker, worker_of, find_emails, run_job, process_url.
    rewrite bool_decide_eq_false_2 by apply not_elem_of_empty.
    simpl. destruct (Hfail O) as [e0 ->]. destruct (Hfail 1%nat) as [e1 ->].
    destruct e0; try (simpl; by rewrite elements_empty).
    destruct e1; simpl; rewrite ?union_empty_r_L; by rewrite elements_empty.
  - intros crawl. unfold worker_of. destruct (crawl url) as [emails | e].
    + split; [by eexists|]. split; [done|]. by intros ? [= ->].
    + split; [by eexists|]. split; done.
Qed.

End BudgetAndBoundary.

(* ===================================================================== *)
(** ** Which paths of the extractor lowercase *)

Module LowerFacts.
Import Str Shapes.

Lemma lower_char_idem (a : ascii) : lower_char (lower_char a) = lower_char a.
Proof. destruct a as [[] [] [] [] [] [] [] []]; reflexivity. Qed.

Lemma space_lower_char (a : ascii) :
  is_space (code (lower_char a)) = is_space (code a).
Proof. destruct a as [[] [] [] [] [] [] [] []]; reflexivity. Qed.

Lemma lower_lowercase (s : string) : lowercase (lower s).
Proof.
  unfold lowercase, lower, lower_chars.
  rewrite StrFacts.chars_text, map_map. f_equal.
  apply map_ext. intros a. apply lower_char_idem.
Qed.

Lemma lstrip_lower (l : list ascii) :
  lower_chars (lstrip_chars l) = lstrip_chars (lower_chars l).
Proof.
  induction l as [|a l IH]; [done|]. simpl. rewrite space_lower_char.
  by destruct (is_space (code a)).
Qed.

Lemma strip_lowercase (s : string) : lowercase s -> lowercase (strip s).
Proof.
  unfold lowercase, lower, strip, strip_chars. intros H.
  rewrite StrFacts.chars_text. f_equal.
  apply (f_equal chars) in H. rewrite StrFacts.chars_text in H.
  unfold lower_chars in *.
  rewrite map_rev. fold (lower_chars (lstrip_chars (rev (lstrip_chars (chars s))))).
  rewrite lstrip_lower. unfold lower_chars. rewrite map_rev.
  fold (lower_chars (lstrip_chars (chars s))). rewrite lstrip_lower.
  unfold lower_chars. by rewrite H.
Qed.

Lemma add_if_lowercase (ok : bool) (e : string) (emails : gset string) :
  lowercase e -> all_lowercase emails -> all_lowercase (add_if ok e emails).
Proof.
  intros He Hall. unfold add_if. destruct ok; [|done].
  intros x Hx. apply elem_of_union in Hx as [Hx | Hx]; [|by apply Hall].
  by apply elem_of_singleton in Hx as ->.
Qed.

Lemma fold_lowercase {X : Type} (f : gset string -> X -> gset string)
    (xs : list X) (acc : gset string) :
  (forall acc x, all_lowercase acc -> all_lowercase (f acc x)) ->
  all_lowercase acc -> all_lowercase (fold_left f xs acc).
Proof.
  intros Hf. revert acc. induction xs as [|x xs IH]; intros acc H; [done|].
  simpl. by apply IH, Hf.
Qed.

Lemma mailto_lowercase (sp : soup) (acc : gset string) :
  all_lowercase acc -> all_lowercase (mailto_emails sp acc).
Proof.
  apply fold_lowercase. intros emails a H.
  destruct (startswith (href a) "mailto:"); [|done].
  apply add_if_lowercase; [apply lower_lowercase | done].
Qed.

Lemma text_lowercase (sp : soup) (acc : gset string) :
  all_lowercase acc -> all_lowercase (text_emails sp acc).
Proof.
  apply fold_lowercase. intros emails m H.
  apply add_if_lowercase; [apply lower_lowercase | done].
Qed.

Lemma decoded_lowercase (decoded : list N) :
  all_lowercase (extract_emails_from_text decoded).
Proof.
  unfold extract_emails_from_text.
  destruct decoded as [|n decoded]; [by intros e He; apply not_elem_of_empty in He|].
  apply fold_lowercase.
  - intros emails m H.
    apply add_if_lowercase; [apply strip_lowercase, lower_lowercase | done].
  - intros e He. by apply not_elem_of_empty in He.
Qed.

End LowerFacts.

(* ===================================================================== *)
(** ** The claims at the example sites *)

(** C1. With [max_subpages = 3] no job starts the fetch of more than two
    pages other than the seed, whatever the site and the network. On
    the site whose home page yields ten candidates, with no request
    failing, the job fetches exactly two of them, not three: the page
    counter starts at 1 and the loop runs while it is below
    [max_subpages]. *)
Theorem three_subpages_budget_gives_two :
  (forall urljoin urlparse net base_url max_retries,
     (length
        (subpages_fetched (normalize base_url)
           (log (job_state_end
              (run_job urljoin urlparse net base_url 3 max_retries))))
      <= 2)%nat)
  /\ (exists found,
        find_subpage_urls absolute_urljoin simple_urlparse home_page
          "https://site.test" = Ok found
        /\ size found = 10%nat)
  /\ (let j :=
        run_job absolute_urljoin simple_urlparse site_net "site.test" 3 2 in
      job_raised j = None
      /\ successes site_net 0 (gets (log (job_state_end j)))
         = length (gets (log (job_state_end j)))
      /\ length (subpages_fetched "https://site.test" (log (job_state_end j)))
         = 2%nat).
Proof.
  split; [|split].
  - intros urljoin urlparse net base_url max_retries.
    apply (CrawlFacts.job_effect urljoin urlparse net base_url 3 max_retries).
  - eexists. split; [reflexivity | by vm_compute].
  - by vm_compute.
Qed.

(** C2. The mailto path, the visible text path and the path of the
    decoded entities give lowercase addresses only. The concatenation
    path does not lowercase: the job on the page that builds
    Jane@Acme.org in a script returns that address with its capitals,
    next to the lowercase address of the page text, so the result is not
    all lowercase and holds the same address twice. *)
Theorem script_email_keeps_capitals :
  (forall sp, Shapes.all_lowercase (text_emails sp (mailto_emails sp ∅)))
  /\ (forall decoded, Shapes.all_lowercase (extract_emails_from_text decoded))
  /\ (exists emails,
        find_emails absolute_urljoin simple_urlparse script_net "acme.org"
          10 2 = Ok emails
        /\ In "Jane@Acme.org"%string emails
        /\ In "jane@acme.org"%string emails
        /\ ~ Shapes.lowercase "Jane@Acme.org").
Proof.
  split; [|split].
  - intros sp. apply LowerFacts.text_lowercase, LowerFacts.mailto_lowercase.
    intros e He. by apply not_elem_of_empty in He.
  - apply LowerFacts.decoded_lowercase.
  - eexists. split; [by vm_compute|].
    split; [right; by left|]. split; [by left|]. by vm_compute.
Qed.

(** C3 as stated fails: with [max_retries = 2] and every request failing,
    the fetch routine gives up after two tries, one retry, and not after
    [1 + max_retries] tries. *)
Lemma three_tries_counterexample :
  let st' :=
    (process_url absolute_urljoin simple_urlparse dead_net
       "https://site.test" 2 initial_state).2 in
  gets (log st') = ["https://site.test"; "https://site.test"]%string
  /\ Z.of_nat (length (gets (log st'))) <> 1 + 2.
Proof. split; [by vm_compute|]. vm_compute. discriminate. Qed.

Lemma process_url_gives_up_witness :
  exists st',
    process_url absolute_urljoin simple_urlparse dead_net
      "https://site.test" 2 initial_state = (Ok (∅, []), st')
    /\ log st'
       = log initial_state ++ retry_log "https://site.test" 2
    /\ gets (retry_log "https://site.test" 2)
       = replicate (Z.to_nat 2) "https://site.test"%string
    /\ backoffs (retry_log "https://site.test" 2)
       = (fun k => 2 * k) <$> seqZ 1 (2 - 1).
Proof.
  apply process_url_gives_up.
  - simpl. apply not_elem_of_empty.
  - intros k. reflexivity.
Defined.

Lemma url_fetched_once_witness :
  (count_of "https://site.test/contact7"
     (gets (log (job_state_end
        (run_job absolute_urljoin simple_urlparse site_net "site.test"
           3 2)))) <= 1)%nat
  /\ count_of "https://site.test/team"
       (fetches (log (drain absolute_urljoin simple_urlparse site_net 3 2
                        ["https://site.test/team"; "https://site.test/team"]%string
                        1 ∅ initial_state).2)) = 1%nat.
Proof.
  destruct (url_fetched_once absolute_urljoin simple_urlparse site_net)
    as (_ & H2 & _ & H3).
  split.
  - apply H2. intros k u. unfold site_net.
    destruct (String.eqb u "https://site.test"); discriminate.
  - apply H3.
    + split; [constructor|]. simpl. intros u Hu. inversion Hu.
    + simpl. apply not_elem_of_empty.
    + lia.
    + lia.
Defined.

Lemma only_seed_links_fetched_witness :
  "https://site.test/contact7"%string = normalize "site.test"
  \/ exists k sp found,
       site_net k (normalize "site.test") = Rendered sp
       /\ find_subpage_urls absolute_urljoin simple_urlparse sp
            (normalize "site.test") = Ok found
       /\ "https://site.test/contact7"%string ∈ found.
Proof.
  apply (proj1 (only_seed_links_fetched absolute_urljoin simple_urlparse
                  site_net "site.test" 3 2)).
  vm_compute. apply list_elem_of_In. right. left. reflexivity.
Defined.


Lemma worker_never_raises_witness :
  worker absolute_urljoin simple_urlparse dead_net "site.test" = Ok []
  /\ worker_of (fun _ => Raise OtherError) "site.test" = Ok [].
Proof.
  destruct (worker_never_raises absolute_urljoin simple_urlparse dead_net
              "site.test") as (_ & H2 & H3).
  split.
  - apply H2. intros k. by exists RequestException.
  - by apply (H3 (fun _ => Raise OtherError)) with (e := OtherError).
Defined.

(* ===================================================================== *)
(** ** Script obfuscation *)

Module ConcatFacts.
Import Str Shapes Re.

Lemma quote_classes (a : ascii) :
  quote a ->
  is_space (code a) = false /\ is_local_char (code a) = false
  /\ is_domain_char (code a) = false /\ is_letter (code a) = false.
Proof.
  intros H. apply CharFacts.is_quote_cases in H as [-> | ->]; by vm_compute.
Qed.

Lemma scan_arrives {A : Type} (p : pattern A) (skip : nat) (pre s : list A) :
  arrives p skip pre s = true ->
  exists before, scan p skip (pre ++ s) = before ++ scan p O s.
Proof.
  revert skip. induction pre as [|a pre IH]; intros skip; simpl.
  - destruct skip; [|done]. intros _. by exists [].
  - destruct skip as [|n]; [|apply IH].
    destruct (match_here p anywhere (a :: pre ++ s)) as [taken|].
    + intros H. destruct (IH _ H) as [before ->]. by exists (taken :: before).
    + apply IH.
Qed.

(** One character of a given class, then the rest of the pattern. *)
Lemma match_one (c : N -> bool) (p : pattern ascii) (a : ascii)
    (s : list ascii) (taken : list (list ascii)) :
  c (code a) = true ->
  match_here p anywhere s = Some taken ->
  match_here (Pat.one code c :: p) anywhere ([a] ++ s) = Some ([a] :: taken).
Proof.
  intros Ha H. apply ReSteps.match_item; [|simpl; lia | done].
  apply (Validator.run_capped _ 1 [a]); [by constructor | done].
Qed.

(** A run of a class that stops where the rest of the text begins. *)
Lemma match_run (it : item ascii) (p : pattern ascii) (chunk s : list ascii)
    (taken : list (list ascii)) :
  hi it = None -> (lo it <= length chunk)%nat ->
  Forall (fun a => cls it a = true) chunk -> stops (cls it) s ->
  match_here p anywhere s = Some taken ->
  match_here (it :: p) anywhere (chunk ++ s) = Some (chunk :: taken).
Proof.
  intros Hhi Hlo Hall Hstop H. apply ReSteps.match_item; [|done..].
  rewrite Hhi. by apply ReSteps.run_stop.
Qed.

(** The domain literal, where the matcher has to give characters back:
    the run of the domain class takes acme.org whole, and gives org and
    the dot back. *)
Lemma domain_tail (q6 : ascii) (post : list ascii) :
  quote q6 ->
  match_here
    [Pat.plus code is_domain_char; Pat.one code (is_char 46);
     Pat.at_least code 2 is_letter; Pat.one code is_quote]
    anywhere (chars "acme.org" ++ [q6] ++ post)
  = Some [chars "acme"; ["."%char]; chars "org"; [q6]].
Proof.
  intros H. apply CharFacts.is_quote_cases in H as [-> | ->];
    destruct post; reflexivity.
Qed.

Ltac match_quote H :=
  apply match_one; [exact H|].
Ltac match_char :=
  apply match_one; [reflexivity|].
Ltac match_spaces H Hstop :=
  apply match_run; [reflexivity | simpl; lia | exact H | exact Hstop |].

Lemma concat_match (q1 q2 q3 q4 q5 q6 : ascii) (w1 w2 w3 w4 post : list ascii) :
  quote q1 -> quote q2 -> quote q3 -> quote q4 -> quote q5 -> quote q6 ->
  whitespace w1 -> whitespace w2 -> whitespace w3 -> whitespace w4 ->
  match_here (Pat.concat_pattern code) anywhere
    (concat_occurrence q1 q2 q3 q4 q5 q6 w1 w2 w3 w4 ++ post)
  = Some [ [q1]; chars "jane"; [q2]; w1; ["+"%char]; w2;
           [q3]; ["@"%char]; [q4]; w3; ["+"%char]; w4;
           [q5]; chars "acme"; ["."%char]; chars "org"; [q6] ].
Proof.
  intros H1 H2 H3 H4 H5 H6 Hw1 Hw2 Hw3 Hw4.
  destruct (quote_classes q2 H2) as (_ & Hl2 & _).
  destruct (quote_classes q3 H3) as (Hs3 & _).
  destruct (quote_classes q5 H5) as (Hs5 & _).
  unfold concat_occurrence, Pat.concat_pattern. rewrite <- !app_assoc.
  match_quote H1.
  apply match_run; [reflexivity | simpl; lia | by repeat constructor
                   | exact Hl2 |].
  match_quote H2. match_spaces Hw1 (eq_refl false). match_char.
  match_spaces Hw2 Hs3. match_quote H3. match_char. match_quote H4.
  match_spaces Hw3 (eq_refl false). match_char.
  match_spaces Hw4 Hs5. match_quote H5.
  by apply domain_tail.
Qed.

Lemma parts_match (qa qb : ascii) (body w w' rest : list ascii) :
  quote qa -> quote qb ->
  Forall (fun a => is_quote (code a) = false) body ->
  whitespace w -> whitespace w' -> stops (is_space ∘ code) rest ->
  match_here (Pat.parts_pattern code) anywhere (fragment qa qb body w w' ++ rest)
  = Some [ [qa]; body; [qb]; w; ["+"%char]; w' ].
Proof.
  intros Ha Hb Hbody Hw Hw' Hrest.
  destruct (quote_classes qb Hb) as (Hsb & _).
  unfold fragment, Pat.parts_pattern. rewrite <- !app_assoc.
  match_quote Ha.
  apply match_run; [reflexivity | simpl; lia | | |].
  { eapply Forall_impl; [exact Hbody|]. intros a Hq. simpl. by rewrite Hq. }
  { simpl. unfold quote in Hb. by rewrite Hb. }
  match_quote Hb. match_spaces Hw (eq_refl false). match_char.
  match_spaces Hw' Hrest. reflexivity.
Qed.

Lemma fragment_taken (qa qb : ascii) (body w w' : list ascii) :
  concat [ [qa]; body; [qb]; w; ["+"%char]; w' ] = fragment qa qb body w w'.
Proof. unfold fragment. simpl. by rewrite app_nil_r. Qed.

Lemma fragment_nonempty (qa qb : ascii) (body w w' : list ascii) :
  fragment qa qb body w w' <> [].
Proof. unfold fragment. simpl. discriminate. Qed.

Lemma reconstruct_occurrence (q1 q2 q3 q4 q5 q6 : ascii)
    (w1 w2 w3 w4 : list ascii) :
  quote q1 -> quote q2 -> quote q3 -> quote q4 -> quote q5 -> quote q6 ->
  whitespace w1 -> whitespace w2 -> whitespace w3 -> whitespace w4 ->
  reconstruct (concat_occurrence q1 q2 q3 q4 q5 q6 w1 w2 w3 w4)
  = "jane@acme.org"%string.
Proof.
  intros H1 H2 H3 H4 H5 H6 Hw1 Hw2 Hw3 Hw4.
  destruct (quote_classes q3 H3) as (Hs3 & _).
  destruct (quote_classes q5 H5) as (Hs5 & _).
  unfold reconstruct, findall_group.
  replace (concat_occurrence q1 q2 q3 q4 q5 q6 w1 w2 w3 w4 ++ chars "+")
    with (fragment q1 q2 (chars "jane") w1 w2
          ++ fragment q3 q4 ["@"%char] w3 w4
          ++ fragment q5 q6 (chars "acme.org") [] [] ++ [])
    by (unfold concat_occurrence, fragment; rewrite <- !app_assoc;
        reflexivity).
  erewrite ReSteps.scan_match;
    [| apply fragment_nonempty
     | apply parts_match; [done | done | by repeat constructor | done | done
                          | exact Hs3]
     | apply fragment_taken].
  erewrite ReSteps.scan_match;
    [| apply fragment_nonempty
     | apply parts_match; [done | done | by repeat constructor | done | done
                          | exact Hs5]
     | apply fragment_taken].
  erewrite ReSteps.scan_match;
    [| apply fragment_nonempty
     | apply parts_match; [done | done | by repeat constructor
                          | by constructor | by constructor | exact I]
     | apply fragment_taken].
  reflexivity.
Qed.

Lemma fold_keeps (x : string) (ms : list (list ascii)) (acc : gset string) :
  x ∈ acc -> x ∈ fold_left add_reconstructed ms acc.
Proof.
  revert acc. induction ms as [|m ms IH]; intros acc H; [done|].
  simpl. apply IH. unfold add_reconstructed, add_if.
  destruct (_ && _); [|done]. apply elem_of_union. by right.
Qed.

Lemma fold_adds (m : list ascii) (ms : list (list ascii)) (acc : gset string) :
  In m ms ->
  contains "@" (reconstruct m) && validate_email (reconstruct m) = true ->
  reconstruct m ∈ fold_left add_reconstructed ms acc.
Proof.
  revert acc. induction ms as [|m' ms IH]; intros acc Hin Hok; [done|].
  destruct Hin as [-> | Hin]; [|by apply IH].
  simpl. apply fold_keeps. unfold add_reconstructed, add_if. rewrite Hok.
  apply elem_of_union. left. by apply elem_of_singleton.
Qed.

Lemma occurrence_found (q1 q2 q3 q4 q5 q6 : ascii)
    (w1 w2 w3 w4 pre post : list ascii) :
  quote q1 -> quote q2 -> quote q3 -> quote q4 -> quote q5 -> quote q6 ->
  whitespace w1 -> whitespace w2 -> whitespace w3 -> whitespace w4 ->
  arrives (Pat.concat_pattern code) O pre
    (concat_occurrence q1 q2 q3 q4 q5 q6 w1 w2 w3 w4 ++ post) = true ->
  In (concat_occurrence q1 q2 q3 q4 q5 q6 w1 w2 w3 w4)
    (findall (Pat.concat_pattern code)
       (pre ++ concat_occurrence q1 q2 q3 q4 q5 q6 w1 w2 w3 w4 ++ post)).
Proof.
  intros H1 H2 H3 H4 H5 H6 Hw1 Hw2 Hw3 Hw4 Harr.
  unfold findall. apply scan_arrives in Harr as [before ->].
  erewrite ReSteps.scan_match;
    [| by unfold concat_occurrence | by apply concat_match |].
  - rewrite map_app. apply in_or_app. right. left. reflexivity.
  - unfold concat_occurrence. simpl. reflexivity.
Qed.

(** No match of the concatenation pattern starts where no quote is. *)
Lemma no_quote_arrives (pre s : list ascii) :
  Forall (fun a => is_quote (code a) = false) pre ->
  arrives (Pat.concat_pattern code) O pre s = true.
Proof.
  induction 1 as [|a pre Ha _ IH]; [done|].
  simpl. by rewrite Ha.
Qed.

(** A text without ampersand has no entity: the decoding returns it as
    it is, and does not raise. *)
Lemma decode_plain (l : list ascii) :
  Forall (fun a => is_char 38 (code a) = false) l ->
  decode_entities (text l) = Ok (map code l).
Proof.
  unfold decode_entities. rewrite StrFacts.chars_text.
  induction 1 as [|a l Ha _ IH]; [done|].
  simpl. unfold compose. rewrite Ha. simpl. by rewrite IH.
Qed.

End ConcatFacts.

(** C6 as stated fails: in this script text the opening quote of the
    literal jane is the closing quote of an earlier match, the scan goes
    on after it and never sees the concatenation that follows. *)
Lemma overlapped_concatenation_counterexample :
  let script_text := "'x'+'@'+'y.zz'jane'+'@'+'acme.org'"%string in
  Str.chars script_text
  = Str.chars "'x'+'@'+'y.zz"
    ++ Shapes.concat_occurrence "'" "'" "'" "'" "'" "'" [] [] [] []
  /\ extract_obfuscated_emails script_text = Ok {[ "x@y.zz"%string ]}
  /\ "jane@acme.org"%string ∉ ({[ "x@y.zz"%string ]} : gset string).
Proof.
  split; [reflexivity|]. split; [by vm_compute|].
  intros H. apply elem_of_singleton in H. discriminate H.
Qed.

(** C6, amended. Take a script text in which jane, at sign, acme.org
    occur as three concatenated literals, with a single or double quote
    at each place and any whitespace around the plus signs. If no
    earlier match of the concatenation pattern runs into the occurrence
    (the scan arrives at its opening quote; so it is when no quote
    precedes the occurrence), and the decoding of the numeric entities
    of the text does not raise (so it is when the text has no
    ampersand), then the extractor returns a set that holds
    jane@acme.org. *)
Theorem concatenation_reconstructed (q1 q2 q3 q4 q5 q6 : ascii)
    (w1 w2 w3 w4 pre post : list ascii) :
  Shapes.quote q1 -> Shapes.quote q2 -> Shapes.quote q3 ->
  Shapes.quote q4 -> Shapes.quote q5 -> Shapes.quote q6 ->
  Shapes.whitespace w1 -> Shapes.whitespace w2 ->
  Shapes.whitespace w3 -> Shapes.whitespace w4 ->
  let occurrence :=
    Shapes.concat_occurrence q1 q2 q3 q4 q5 q6 w1 w2 w3 w4 in
  let script_text := Str.text (pre ++ occurrence ++ post) in
  Re.arrives (Pat.concat_pattern Str.code) O pre (occurrence ++ post) = true
  \/ Forall (fun a => Str.is_quote (Str.code a) = false) pre ->
  (exists decoded, decode_entities script_text = Ok decoded)
  \/ Forall (fun a => Str.is_char 38 (Str.code a) = false)
       (pre ++ occurrence ++ post) ->
  exists emails,
    extract_obfuscated_emails script_text = Ok emails
    /\ "jane@acme.org"%string ∈ emails.
Proof.
  intros H1 H2 H3 H4 H5 H6 Hw1 Hw2 Hw3 Hw4 occurrence script_text Harr Hdec.
  assert (Re.arrives (Pat.concat_pattern Str.code) O pre (occurrence ++ post)
          = true) as Harr'
    by (destruct Harr; [done | by apply ConcatFacts.no_quote_arrives]).
  assert (exists decoded, decode_entities script_text = Ok decoded)
    as [decoded Hdec'].
  { destruct Hdec as [H | H]; [done|]. eexists.
    by apply ConcatFacts.decode_plain. }
  unfold extract_obfuscated_emails. rewrite Hdec'. eexists. split; [done|].
  apply elem_of_union. left. unfold script_text.
  rewrite StrFacts.chars_text.
  rewrite <- (ConcatFacts.reconstruct_occurrence q1 q2 q3 q4 q5 q6
                w1 w2 w3 w4) by done.
  apply ConcatFacts.fold_adds.
  - by apply ConcatFacts.occurrence_found.
  - by rewrite ConcatFacts.reconstruct_occurrence.
Qed.

Lemma concatenation_reconstructed_witness :
  exists emails,
    extract_obfuscated_emails
      (Str.text (Str.chars "var e = "
                 ++ Shapes.concat_occurrence "'" "'" "'" "'" "'" "'"
                      [" "%char] [" "%char] [] ["009"%char]
                 ++ Str.chars "; send(e)"))
    = Ok emails
    /\ "jane@acme.org"%string ∈ emails.
Proof.
  apply concatenation_reconstructed.
  1-6: reflexivity.
  1-4: repeat constructor.
  - left. reflexivity.
  - left. eexists. vm_compute. reflexivity.
Defined.

(* ===================================================================== *)
(** * Further properties *)

(** ** Column detection and worker sizing *)

Module ColumnFacts.

Lemma contains_trans (a b s : string) :
  Str.contains a b = true -> Str.contains b s = true ->
  Str.contains a s = true.
Proof.
  unfold Str.contains. rewrite !StrFacts.contains_chars_spec.
  intros (p1 & q1 & ->) (p2 & q2 & ->).
  exists (p2 ++ p1), (q1 ++ q2). by rewrite <- !app_assoc.
Qed.

Lemma find_url_column_spec (columns : list string) :
  match find_url_column columns with
  | Some col =>
      exists before after,
        columns = before ++ col :: after
        /\ names_urls col = true
        /\ Forall (fun c => names_urls c = false) before
  | None => Forall (fun c => names_urls c = false) columns
  end.
Proof.
  induction columns as [|c rest IH]; simpl; [constructor|].
  destruct (names_urls c) eqn:E.
  - exists [], rest. split; [done|]. split; [done | constructor].
  - destruct (find_url_column rest) as [col|].
    + destruct IH as (before & after & -> & Hcol & Hb).
      exists (c :: before), after. split; [done|]. split; [done|].
      by constructor.
    + by constructor.
Qed.

End ColumnFacts.

(** X1. [find_url_column] returns the first column whose lowercased
    label holds one of the keywords: the columns before it hold none.
    It returns [None] exactly when no column does. *)
Theorem find_url_column_first_match (columns : list string) :
  (forall col,
     find_url_column columns = Some col <->
     exists before after,
       columns = before ++ col :: after
       /\ names_urls col = true
       /\ Forall (fun c => names_urls c = false) before)
  /\ (find_url_column columns = None <->
      Forall (fun c => names_urls c = false) columns).
Proof.
  pose proof (ColumnFacts.find_url_column_spec columns) as H.
  split.
  - intros col. split.
    + intros E. rewrite E in H. exact H.
    + intros (before & after & -> & Hcol & Hb).
      clear H. induction Hb as [|c before Hc _ IH]; simpl.
      * by rewrite Hcol.
      * by rewrite Hc.
  - split.
    + intros E. by rewrite E in H.
    + intros Hall. clear H. induction Hall as [|c rest Hc _ IH]; [done|].
      simpl. by rewrite Hc.
Qed.

(** X2. The keywords websites and urls never decide: a label holds one
    of the four keywords exactly when its lowercase form holds website
    or url. *)
Theorem plural_url_keywords_redundant (col : string) :
  names_urls col
  = Str.contains "website" (Str.lower col)
    || Str.contains "url" (Str.lower col).
Proof.
  unfold names_urls, url_keywords. simpl. rewrite orb_false_r.
  destruct (Str.contains "website" (Str.lower col)) eqn:E1; [done|].
  destruct (Str.contains "url" (Str.lower col)) eqn:E2; [done|].
  simpl.
  destruct (Str.contains "websites" (Str.lower col)) eqn:E3.
  { rewrite (ColumnFacts.contains_trans "website" "websites" _ eq_refl E3)
      in E1. done. }
  destruct (Str.contains "urls" (Str.lower col)) eqn:E4; [|done].
  rewrite (ColumnFacts.contains_trans "url" "urls" _ eq_refl E4) in E2. done.
Qed.

(** X3. With at least one unit and a batch that is not empty, the number
    of workers is at least 1, at most the batch size, at most 16 and at
    most twice the units; an empty batch gets 0 workers. The number
    never goes down when the batch grows. *)
Theorem get_optimal_workers_bounds (c n m : Z) :
  1 <= c ->
  (1 <= n ->
   1 <= get_optimal_workers c n
   /\ get_optimal_workers c n <= n
   /\ get_optimal_workers c n <= 16
   /\ get_optimal_workers c n <= 2 * c)
  /\ get_optimal_workers c 0 = 0
  /\ (n <= m -> get_optimal_workers c n <= get_optimal_workers c m).
Proof.
  intros Hc. unfold get_optimal_workers, min3.
  split; [|split].
  - intros Hn. destruct (Z.leb_spec n 100), (Z.leb_spec n 300); lia.
  - simpl. lia.
  - intros Hnm.
    destruct (Z.leb_spec n 100), (Z.leb_spec n 300), (Z.leb_spec m 100),
      (Z.leb_spec m 300); lia.
Qed.

Lemma get_optimal_workers_bounds_witness :
  (1 <= get_optimal_workers 8 150
   /\ get_optimal_workers 8 150 <= 150
   /\ get_optimal_workers 8 150 <= 16
   /\ get_optimal_workers 8 150 <= 2 * 8)
  /\ get_optimal_workers 8 100 <= get_optimal_workers 8 101.
Proof.
  destruct (get_optimal_workers_bounds 8 150 150) as (H1 & _ & _); [lia|].
  destruct (get_optimal_workers_bounds 8 100 101) as (_ & _ & H3); [lia|].
  split; [apply H1; lia | apply H3; lia].
Defined.

(** ** The matcher and a change of characters that keeps the classes *)

Module ReMap.
Import Re.
Section Map.
Context {A : Type} (f : A -> A).

Lemma run_map (c : A -> bool) (cap : option nat) (s : list A) :
  (forall a, c (f a) = c a) -> run c cap (map f s) = run c cap s.
Proof.
  intros Hc. revert cap. induction s as [|a s IH]; intros cap; [done|].
  simpl. rewrite Hc. destruct cap as [[|n]|]; [done | |];
    destruct (c a); by rewrite ?IH.
Qed.

Lemma backtrack_map (rest rest' : list A -> option (list (list A)))
    (s : list A) (l k : nat) :
  (forall s, rest' (map f s) = map (map f) <$> rest s) ->
  backtrack rest' (map f s) l k = map (map f) <$> backtrack rest s l k.
Proof.
  intros Hrest.
  assert (forall j, rest' (drop j (map f s)) = map (map f) <$> rest (drop j s))
    as Hdrop by (intros j; by rewrite skipn_map, Hrest).
  induction k as [|k IH]; simpl.
  - destruct (0 <? l)%nat; [done|].
    rewrite (Hdrop O). by destruct (rest (drop 0 s)).
  - destruct (S k <? l)%nat; [done|].
    rewrite (Hdrop (S k)). destruct (rest (drop (S k) s)); simpl.
    + by rewrite <- (firstn_map f (S k) s).
    + apply IH.
Qed.

Lemma match_here_map (p : pattern A) (fin : list A -> bool) (s : list A) :
  keeps f p -> (forall s, fin (map f s) = fin s) ->
  match_here p fin (map f s) = map (map f) <$> match_here p fin s.
Proof.
  intros Hp Hfin. revert s. induction Hp as [|it p Hit _ IH]; intros s; simpl.
  - rewrite Hfin. by destruct (fin s).
  - rewrite run_map by done. by apply backtrack_map.
Qed.

Lemma re_search_map (p : pattern A) (s : list A) :
  keeps f p -> re_search p (map f s) = re_search p s.
Proof.
  intros Hp. induction s as [|a s IH].
  - pose proof (match_here_map p anywhere [] Hp (fun _ => eq_refl)) as H.
    simpl in *. rewrite H. by destruct (match_here p anywhere []).
  - pose proof (match_here_map p anywhere (a :: s) Hp (fun _ => eq_refl))
      as H.
    simpl in *. rewrite H.
    destruct (match_here p anywhere (a :: s)); [done | apply IH].
Qed.

End Map.
End ReMap.

(** ** The validator does not tell a string from its lowercase form *)

Module ValidLower.
Import Str.

Ltac by_cases a := destruct a as [[] [] [] [] [] [] [] []]; reflexivity.

Lemma local_lower a : is_local_char (code (lower_char a)) = is_local_char (code a).
Proof. by_cases a. Qed.
Lemma domain_lower a :
  is_domain_char (code (lower_char a)) = is_domain_char (code a).
Proof. by_cases a. Qed.
Lemma letter_lower a : is_letter (code (lower_char a)) = is_letter (code a).
Proof. by_cases a. Qed.
Lemma digit_lower a : is_digit (code (lower_char a)) = is_digit (code a).
Proof. by_cases a. Qed.
Lemma at_lower a : is_char 64 (code (lower_char a)) = is_char 64 (code a).
Proof. by_cases a. Qed.
Lemma dot_lower a : is_char 46 (code (lower_char a)) = is_char 46 (code a).
Proof. by_cases a. Qed.
Lemma dash_lower a : is_char 45 (code (lower_char a)) = is_char 45 (code a).
Proof. by_cases a. Qed.
Lemma newline_lower a : (code (lower_char a) =? 10)%N = (code a =? 10)%N.
Proof. by_cases a. Qed.
Lemma eqb_at_lower a : Ascii.eqb (lower_char a) "@" = Ascii.eqb a "@".
Proof. by_cases a. Qed.
Lemma at_eqb_lower a : Ascii.eqb "@" (lower_char a) = Ascii.eqb "@" a.
Proof. by_cases a. Qed.

Lemma email_pattern_keeps : Re.keeps lower_char (Pat.email_pattern code).
Proof.
  repeat constructor; intros a; simpl; unfold compose;
    auto using local_lower, domain_lower, letter_lower, at_lower, dot_lower.
Qed.

Lemma phone_pattern_keeps : Re.keeps lower_char (Pat.phone_pattern code).
Proof.
  repeat constructor; intros a; simpl; unfold compose;
    auto using digit_lower, dash_lower.
Qed.

Lemma dollar_lower (s : list ascii) :
  Pat.dollar code (map lower_char s) = Pat.dollar code s.
Proof. destruct s as [|a [|b s]]; simpl; [done | apply newline_lower | done]. Qed.

Lemma has_at_lower (l : list ascii) :
  contains_chars ["@"%char] (map lower_char l) = contains_chars ["@"%char] l.
Proof.
  induction l as [|a l IH]; [done|].
  cbn [contains_chars starts_with map]. by rewrite at_eqb_lower, IH.
Qed.

Lemma before_at_lower (l : list ascii) :
  before_char "@" (map lower_char l) = map lower_char (before_char "@" l).
Proof.
  induction l as [|a l IH]; [done|].
  cbn [before_char map]. rewrite eqb_at_lower.
  destruct (Ascii.eqb a "@"); [done|]. cbn [map]. by rewrite IH.
Qed.

Lemma validate_lower (e : string) :
  validate_email (lower e) = validate_email e.
Proof.
  unfold validate_email.
  assert (is_empty (lower e) = is_empty e) as -> by (by destruct e).
  assert (contains "@" (lower e) = contains "@" e) as ->.
  { unfold contains, lower, lower_chars. rewrite StrFacts.chars_text.
    apply has_at_lower. }
  rewrite (LowerFacts.lower_lowercase e).
  assert (Re.re_search (Pat.phone_pattern code) (chars (local_part (lower e)))
          = Re.re_search (Pat.phone_pattern code) (chars (local_part e)))
    as ->.
  { unfold local_part, split_head, lower, lower_chars.
    rewrite !StrFacts.chars_text, before_at_lower.
    apply ReMap.re_search_map, phone_pattern_keeps. }
  assert (bool_decide (is_Some
            (Re.match_here (Pat.email_pattern code) (Pat.dollar code)
               (chars (lower e))))
          = bool_decide (is_Some
              (Re.match_here (Pat.email_pattern code) (Pat.dollar code)
                 (chars e)))) as ->; [|done].
  unfold lower, lower_chars. rewrite StrFacts.chars_text.
  rewrite (ReMap.match_here_map lower_char _ _ _ email_pattern_keeps
             dollar_lower).
  by destruct (Re.match_here _ _ (chars e)).
Qed.

End ValidLower.

(** X4. On the strings of this development, whose code points are below
    256, validation is not sensitive to case: a string is accepted
    exactly when its lowercase form is. *)
Theorem validate_email_case_insensitive (e : string) :
  validate_email (Str.lower e) = validate_email e.
Proof. apply ValidLower.validate_lower. Qed.

(** ** What the validator accepts, what the extractor returns *)

Module Accepted.
Import Str Shapes.

Ltac by_cases a :=
  destruct a as [[] [] [] [] [] [] [] []]; vm_compute;
  first [discriminate | intros _; split; [discriminate | reflexivity]].

Lemma local_plain a :
  is_local_char (code a) = true -> a <> "@"%char /\ (code a < 128)%N.
Proof. by_cases a. Qed.
Lemma domain_plain a :
  is_domain_char (code a) = true -> a <> "@"%char /\ (code a < 128)%N.
Proof. by_cases a. Qed.
Lemma letter_plain a :
  is_letter (code a) = true -> a <> "@"%char /\ (code a < 128)%N.
Proof. by_cases a. Qed.

Lemma plain_forall (c : N -> bool) (l : list ascii) :
  (forall a, c (code a) = true -> a <> "@"%char /\ (code a < 128)%N) ->
  Forall (fun a => c (code a) = true) l ->
  ~ In "@"%char l /\ Forall (fun a => (code a < 128)%N) l.
Proof.
  intros Hc. induction 1 as [|a l Ha _ [IH1 IH2]];
    [split; [intros [] | constructor]|].
  destruct (Hc a Ha) as [Hne Hlt]. split; [|by constructor].
  intros [H | H]; [by apply Hne | by apply IH1].
Qed.

Lemma shaped_plain (l : list ascii) :
  email_shaped l ->
  (exists loc rest, l = loc ++ "@"%char :: rest
                    /\ ~ In "@"%char loc /\ ~ In "@"%char rest)
  /\ Forall (fun a => (code a < 128)%N) l.
Proof.
  intros (loc & dom & tld & -> & _ & Hloc & _ & Hdom & _ & Htld).
  apply (plain_forall _ _ local_plain) in Hloc as [Hl1 Hl2].
  apply (plain_forall _ _ domain_plain) in Hdom as [Hd1 Hd2].
  apply (plain_forall _ _ letter_plain) in Htld as [Ht1 Ht2].
  split.
  - exists loc, (dom ++ "."%char :: tld). split; [done|]. split; [done|].
    intros H. apply in_app_or in H as [H | [H | H]];
      [by apply Hd1 | discriminate H | by apply Ht1].
  - apply Forall_app. split; [done|]. constructor; [done|].
    apply Forall_app. split; [done|]. by constructor.
Qed.

Lemma accepted_plain (e : string) :
  validate_email e = true ->
  (exists loc rest, chars e = loc ++ "@"%char :: rest
                    /\ ~ In "@"%char loc /\ ~ In "@"%char rest)
  /\ Forall (fun a => (code a < 128)%N) (chars e).
Proof.
  intros H. apply Validator.accepted_shape in H as [H | (l & -> & H)];
    apply shaped_plain in H as [(loc & rest & -> & Hl & Hr) Hall];
    [split; [by exists loc, rest | done]|].
  split.
  - exists loc, (rest ++ ["010"%char]). split; [by rewrite <- app_assoc|].
    split; [done|]. intros H. apply in_app_or in H as [H | [H | []]];
      [by apply Hr | discriminate H].
  - apply Forall_app. split; [done|]. by repeat constructor.
Qed.

(** *** The extractor returns accepted addresses only *)

Lemma add_if_valid (e : string) (emails : gset string) :
  all_valid emails -> all_valid (add_if (validate_email e) e emails).
Proof.
  intros Hall. unfold add_if. destruct (validate_email e) eqn:E; [|done].
  intros x Hx. apply elem_of_union in Hx as [Hx | Hx]; [|by apply Hall].
  by apply elem_of_singleton in Hx as ->.
Qed.

Lemma fold_valid {X : Type} (f : gset string -> X -> gset string)
    (xs : list X) (acc : gset string) :
  (forall acc x, all_valid acc -> all_valid (f acc x)) ->
  all_valid acc -> all_valid (fold_left f xs acc).
Proof.
  intros Hf. revert acc. induction xs as [|x xs IH]; intros acc H; [done|].
  simpl. by apply IH, Hf.
Qed.

Lemma empty_valid : all_valid ∅.
Proof. intros e He. by apply not_elem_of_empty in He. Qed.

Lemma union_valid (s1 s2 : gset string) :
  all_valid s1 -> all_valid s2 -> all_valid (s1 ∪ s2).
Proof. intros H1 H2 e He. apply elem_of_union in He as [He | He]; auto. Qed.

Lemma mailto_valid (sp : soup) (acc : gset string) :
  all_valid acc -> all_valid (mailto_emails sp acc).
Proof.
  apply fold_valid. intros emails a H.
  destruct (startswith (href a) "mailto:"); [|done]. by apply add_if_valid.
Qed.

Lemma text_valid (sp : soup) (acc : gset string) :
  all_valid acc -> all_valid (text_emails sp acc).
Proof.
  apply fold_valid. intros emails m H. cbv beta zeta.
  rewrite <- (ValidLower.validate_lower (text m)). by apply add_if_valid.
Qed.

Lemma decoded_valid (decoded : list N) :
  all_valid (extract_emails_from_text decoded).
Proof.
  unfold extract_emails_from_text.
  destruct decoded as [|n decoded]; [apply empty_valid|].
  apply fold_valid; [|apply empty_valid].
  intros emails m H. by apply add_if_valid.
Qed.

Lemma obfuscated_valid (script_text : string) (emails : gset string) :
  extract_obfuscated_emails script_text = Ok emails -> all_valid emails.
Proof.
  unfold extract_obfuscated_emails.
  destruct (decode_entities script_text) as [decoded|]; [|done].
  intros [= <-]. apply union_valid; [|apply decoded_valid].
  apply fold_valid; [|apply empty_valid].
  intros acc m H. unfold add_reconstructed.
  destruct (contains "@" (reconstruct m)); [by apply add_if_valid | done].
Qed.

Lemma scripts_valid (scripts : list string) (acc emails : gset string) :
  all_valid acc -> script_emails scripts acc = Ok emails -> all_valid emails.
Proof.
  revert acc. induction scripts as [|t rest IH]; intros acc Hacc; simpl.
  - by intros [= <-].
  - destruct (extract_obfuscated_emails t) as [found|] eqn:E; [|done].
    apply IH. apply union_valid; [done|]. by eapply obfuscated_valid.
Qed.

Lemma extract_valid (sp : soup) (emails : gset string) :
  extract_emails sp = Ok emails -> all_valid emails.
Proof.
  apply scripts_valid, text_valid, mailto_valid, empty_valid.
Qed.

End Accepted.

(** X5. An address that the validator accepts has exactly one at sign
    and ASCII characters only. *)
Theorem accepted_email_one_at_ascii (e : string) :
  validate_email e = true ->
  (exists loc rest,
     Str.chars e = loc ++ "@"%char :: rest
     /\ ~ In "@"%char loc /\ ~ In "@"%char rest)
  /\ Forall (fun a => (Str.code a < 128)%N) (Str.chars e).
Proof. apply Accepted.accepted_plain. Qed.

Lemma accepted_email_one_at_ascii_witness :
  (exists loc rest,
     Str.chars "a@b.co" = loc ++ "@"%char :: rest
     /\ ~ In "@"%char loc /\ ~ In "@"%char rest)
  /\ Forall (fun a => (Str.code a < 128)%N) (Str.chars "a@b.co").
Proof. apply accepted_email_one_at_ascii. reflexivity. Defined.

(** X6. Every address that [extract_emails] returns for a page is
    accepted by the validator, whichever of its paths found it. *)
Theorem extract_emails_only_valid (sp : soup) (emails : gset string)
    (e : string) :
  extract_emails sp = Ok emails -> e ∈ emails -> validate_email e = true.
Proof. intros H He. by apply (Accepted.extract_valid sp emails H). Qed.

Lemma extract_emails_only_valid_witness :
  validate_email "jane@acme.org" = true.
Proof.
  apply (extract_emails_only_valid script_page
           ({[ "jane@acme.org"%string ]} ∪ {[ "Jane@Acme.org"%string ]})).
  - by vm_compute.
  - apply elem_of_union. left. by apply elem_of_singleton.
Defined.

(** ** More on the page fetcher and the site crawler *)

Module CrawlMore.
Import LogFacts.
Section More.
Variable urljoin : string -> string -> result string.
Variable urlparse : string -> result parsed_url.
Variable net : nat -> string -> fetch_outcome.

#[local] Abbreviation retry := (attempts urljoin urlparse net).
#[local] Abbreviation process := (process_url urljoin urlparse net).
#[local] Abbreviation drain_loop := (drain urljoin urlparse net).
#[local] Abbreviation job := (run_job urljoin urlparse net).
#[local] Abbreviation page_result := (fun sp url =>
  emails ← extract_emails sp;
  found ← find_subpage_urls urljoin urlparse sp url;
  Ok (emails, elements found)).

(** What the retry loop returns and what it costs. *)
Lemma attempts_more (url : string) (max_retries : Z) (n : nat) (a : Z)
    (st st' : job_state) (r : result (gset string * list string)) :
  retry url max_retries n a st = (r, st') ->
  (exists evs, log st' = log st ++ evs /\ (length (gets evs) <= n)%nat
               /\ ((0 < n)%nat -> exists more, evs = Get url a :: more))
  /\ (requests st <= requests st')%nat
  /\ (n = O -> r = Ok (∅, []))
  /\ (forall out, r = Ok out ->
        out = (∅, [])
        \/ exists k sp, (requests st <= k)%nat
                        /\ net k url = Rendered sp
                        /\ page_result sp url = Ok out).
Proof.
  revert a st. induction n as [|n IH]; intros a st.
  - simpl. intros [= <- <-]. split.
    + exists []. rewrite app_nil_r. split; [done|]. split; [simpl; lia | lia].
    + split; [lia|]. split; [done|]. intros out [= <-]. by left.
  - cbn [attempts].
    destruct (net (requests st) url) as [sp | e] eqn:Hnet.
    + intros [= <- <-]. split.
      * exists [Get url a]. split; [done|]. split; [simpl; lia|].
        intros _. by exists [].
      * split; [simpl; lia|]. split; [done|].
        intros out Hout. right. exists (requests st), sp.
        split; [lia|]. by split.
    + destruct e.
      2,3,4: (intros [= <- <-]; split;
              [exists [Get url a]; split; [done|]; split; [simpl; lia|];
               intros _; by exists []
              | split; [simpl; lia|]; split; done]).
      intros H. apply IH in H as ((evs & Hl & Hlen & _) & Hreq & _ & Hout).
      assert (exists pre, log (if a <? max_retries - 1
                               then record (Backoff (2 * (a + 1)))
                                      (record_get url a st)
                               else record_get url a st)
                          = log st ++ Get url a :: pre
                          /\ gets pre = []) as (pre & Hpre & Hgp).
      { destruct (a <? max_retries - 1); simpl.
        - exists [Backoff (2 * (a + 1))]. by rewrite <- app_assoc.
        - by exists []. }
      rewrite Hpre in Hl. split.
      * exists (Get url a :: pre ++ evs).
        split; [rewrite Hl; by rewrite <- app_assoc|]. split.
        -- simpl. rewrite gets_app, Hgp. simpl. lia.
        -- intros _. by eexists.
      * split.
        -- destruct (a <? max_retries - 1); simpl in Hreq; lia.
        -- split; [done|]. intros out Hr.
           destruct (Hout out Hr) as [-> | (k & sp & Hk & Hn & Hp)];
             [by left|].
           right. exists k, sp. split; [|done].
           destruct (a <? max_retries - 1); simpl in Hk; lia.
Qed.

Lemma process_more (url : string) (max_retries : Z)
    (st st' : job_state) (r : result (gset string * list string)) :
  process url max_retries st = (r, st') ->
  (exists evs, log st' = log st ++ evs
               /\ (length (gets evs) <= Z.to_nat max_retries)%nat)
  /\ (requests st <= requests st')%nat
  /\ visited_urls st ⊆ visited_urls st'
  /\ url ∈ visited_urls st'
  /\ (forall out, r = Ok out ->
        out = (∅, [])
        \/ exists k sp, (requests st <= k)%nat
                        /\ net k url = Rendered sp
                        /\ page_result sp url = Ok out).
Proof.
  unfold process_url.
  destruct (decide (url ∈ visited_urls st)) as [Hin | Hout].
  - rewrite bool_decide_eq_true_2 by done. intros [= <- <-].
    split; [exists []; rewrite app_nil_r; split; [done | simpl; lia]|].
    split; [lia|]. split; [done|]. split; [done|].
    intros out [= <-]. by left.
  - rewrite bool_decide_eq_false_2 by done. intros H.
    pose proof H as H'.
    apply CrawlFacts.attempts_effect in H' as (Hv & _); [|lia].
    apply attempts_more in H as ((evs & Hl & Hlen & _) & Hreq & _ & Hres).
    split; [by exists evs|]. split; [done|].
    rewrite Hv. simpl. split; [apply union_subseteq_r|].
    split; [|done]. apply elem_of_union. left. by apply elem_of_singleton.
Qed.

Lemma process_gets (url : string) (max_retries : Z)
    (st st' : job_state) (r : result (gset string * list string)) (u : string) :
  process url max_retries st = (r, st') ->
  u ∈ gets (log st') -> u ∈ gets (log st) \/ u = url.
Proof.
  intros H Hu. destruct (decide (url ∈ visited_urls st)) as [Hin | Hout].
  - rewrite CrawlFacts.process_visited in H by done.
    injection H as _ <-. by left.
  - apply CrawlFacts.process_fresh in H as (_ & (evs & Hl & Hg & _) & _);
      [|done].
    rewrite Hl, gets_app in Hu. apply elem_of_app in Hu as [Hu | Hu];
      [by left | right; by apply Hg].
Qed.

Lemma drain_more (max_subpages max_retries : Z) (frontier : list string)
    (pv : Z) (em : gset string) (st st' : job_state) (fin : loop_end) :
  drain_loop max_subpages max_retries frontier pv em st = (fin, st') ->
  (exists evs, log st' = log st ++ evs
               /\ (length (gets evs)
                   <= Z.to_nat max_retries * Z.to_nat (max_subpages - pv))%nat)
  /\ (requests st <= requests st')%nat
  /\ visited_urls st ⊆ visited_urls st'
  /\ (requested_visited st -> requested_visited st')
  /\ (forall e, e ∈ all_emails fin ->
        e ∈ em
        \/ exists k u sp emails subs,
             u ∈ frontier /\ (requests st <= k)%nat
             /\ net k u = Rendered sp
             /\ page_result sp u = Ok (emails, subs) /\ e ∈ emails).
Proof.
  assert (forall (s : job_state) (bound : nat), exists evs,
            log s = log s ++ evs /\ (length (gets evs) <= bound)%nat) as Hnone.
  { intros s bound. exists []. rewrite app_nil_r. split; [done | simpl; lia]. }
  revert pv em st. induction frontier as [|u rest IH]; intros pv em st.
  - simpl. intros [= <- <-]. split; [apply Hnone|]. split; [lia|].
    split; [done|]. split; [done|]. intros e He. by left.
  - simpl. destruct (Z.ltb_spec pv max_subpages) as [Hpv | Hpv].
    2: { intros [= <- <-]. split; [apply Hnone|]. split; [lia|].
         split; [done|]. split; [done|]. intros e He. by left. }
    destruct (decide (u ∈ visited_urls st)) as [Hin | Hout].
    + rewrite bool_decide_eq_true_2 by done. intros H.
      apply IH in H as ((evs & Hl & Hlen) & Hreq & Hvis & Hrv & Hem).
      split; [exists evs; split; [done | nia]|]. split; [done|].
      split; [done|]. split; [done|].
      intros e He. destruct (Hem e He) as [? | (k & v & sp & es & ss & Hv & ?)];
        [by left|].
      right. exists k, v, sp, es, ss. split; [by right | done].
    + rewrite bool_decide_eq_false_2 by done.
      destruct (process u max_retries (record PoliteDelay st))
        as [r st1] eqn:Hp.
      pose proof (process_more _ _ _ _ _ Hp)
        as ((evs1 & Hl1 & Hlen1) & Hreq1 & Hvis1 & Hu1 & Hout1).
      simpl in Hl1, Hreq1, Hvis1.
      assert (requested_visited st -> requested_visited st1) as Hrv1.
      { intros Hrv v Hv. destruct (process_gets _ _ _ _ _ v Hp Hv) as [Hv' | ->];
          [|done].
        apply Hvis1, Hrv. simpl in Hv'. rewrite gets_app in Hv'. simpl in Hv'.
        by rewrite app_nil_r in Hv'. }
      destruct r as [[emails subs] | e].
      * intros H.
        apply IH in H as ((evs & Hl & Hlen) & Hreq & Hvis & Hrv & Hem).
        split.
        { exists ([PoliteDelay] ++ evs1 ++ evs).
          split; [rewrite Hl, Hl1; by rewrite <- !app_assoc|].
          rewrite !gets_app, !length_app. simpl. nia. }
        split; [lia|]. split; [by etrans|]. split; [auto|].
        intros x Hx. destruct (Hem x Hx) as [Hx' | (k & v & sp & es & ss & Hv & Hk & ?)].
        -- apply elem_of_union in Hx' as [Hx' | Hx']; [by left|].
           right. destruct (Hout1 _ eq_refl) as [[= -> ->] | (k & sp & Hk & Hn & Hr)];
             [by apply not_elem_of_empty in Hx'|].
           exists k, u, sp, emails, subs. split; [by left|]. by split.
        -- right. exists k, v, sp, es, ss. split; [by right|]. split; [lia | done].
      * intros [= <- <-].
        split.
        { exists ([PoliteDelay] ++ evs1).
          split; [rewrite Hl1; by rewrite <- !app_assoc|].
          rewrite !gets_app, !length_app. simpl. nia. }
        split; [lia|]. split; [done|]. split; [done|]. intros x Hx. by left.
Qed.

Lemma page_result_emails (sp : soup) (url : string) (emails : gset string)
    (subs : list string) :
  page_result sp url = Ok (emails, subs) -> extract_emails sp = Ok emails.
Proof.
  cbv beta. destruct (extract_emails sp) as [em|]; simpl; [|done].
  destruct (find_subpage_urls urljoin urlparse sp url); simpl; [|done].
  by intros [= -> _].
Qed.

Lemma job_more (base_url : string) (max_subpages max_retries : Z) :
  let j := job base_url max_subpages max_retries in
  let st := job_state_end j in
  (length (gets (log st))
   <= Z.to_nat max_retries * (1 + Z.to_nat (max_subpages - 1)))%nat
  /\ requested_visited st
  /\ (forall u rest, gets (log st) = u :: rest -> u = normalize base_url)
  /\ (forall e, e ∈ job_emails j ->
        exists k u sp emails,
          net k u = Rendered sp /\ extract_emails sp = Ok emails
          /\ e ∈ emails).
Proof.
  unfold run_job, process_url.
  rewrite bool_decide_eq_false_2 by apply not_elem_of_empty.
  destruct (retry (normalize base_url) max_retries (Z.to_nat max_retries) 0
              (mark_visited (normalize base_url) initial_state))
    as [r st1] eqn:Ha.
  pose proof Ha as Ha'.
  apply CrawlFacts.attempts_effect in Ha' as (Hv1 & (evs0 & Hl0 & Hg0 & _) & _);
    [|lia].
  apply attempts_more in Ha
    as ((evs1 & Hl1 & Hlen1 & Hfirst) & _ & Hzero & Hout1).
  simpl in Hl0, Hl1, Hv1. subst evs0.
  assert (requested_visited st1) as Hrv1.
  { intros u Hu. rewrite (Hg0 u Hu), Hv1.
    apply elem_of_union. left. by apply elem_of_singleton. }
  assert (forall u rest, gets (log st1) = u :: rest -> u = normalize base_url)
    as Hhead1.
  { intros u rest Hu. apply Hg0. rewrite Hu. by left. }
  destruct r as [[emails subs] | e]; simpl.
  2: { split; [rewrite Hl1; nia|]. split; [done|]. split; [done|].
       intros x Hx. by apply not_elem_of_empty in Hx. }
  destruct (drain_loop max_subpages max_retries subs 1 (∅ ∪ emails) st1)
    as [fin st2] eqn:Hd.
  apply drain_more in Hd as ((evs & Hl & Hlen) & _ & _ & Hrv & Hem). simpl.
  split; [rewrite Hl, gets_app, length_app, Hl1; nia|].
  split; [auto|]. split.
  - intros u rest Hu. rewrite Hl, gets_app in Hu.
    destruct (Z.to_nat max_retries) as [|n] eqn:En.
    + specialize (Hzero eq_refl). injection Hzero as -> ->.
      simpl in Hl1. simpl in Hlen. assert (gets evs = []) as Hnil
        by (destruct (gets evs); [done | simpl in Hlen; lia]).
      assert (gets (log st1) = []) as Hnil1
        by (rewrite Hl1; destruct (gets evs1); [done | simpl in Hlen1; lia]).
      rewrite Hnil, Hnil1 in Hu. done.
    + destruct Hfirst as [more Hmore]; [lia|].
      rewrite Hl1, Hmore in Hu. simpl in Hu. by injection Hu as <- _.
  - intros x Hx.
    destruct (Hem x Hx) as [Hx' | (k & u & sp & es & ss & _ & _ & Hn & Hp & Hxe)].
    + apply elem_of_union in Hx' as [Hx' | Hx'];
        [by apply not_elem_of_empty in Hx'|].
      destruct (Hout1 _ eq_refl) as [[= -> ->] | (k & sp & _ & Hn & Hp)];
        [by apply not_elem_of_empty in Hx'|].
      exists k, (normalize base_url), sp, emails.
      split; [done|]. split; [by eapply page_result_emails | done].
    + exists k, u, sp, es. split; [done|].
      split; [by eapply page_result_emails | done].
Qed.

End More.
End CrawlMore.

Module NormalizeFacts.
Import Str.

Lemma chars_append (a b : string) : chars (a +:+ b) = chars a ++ chars b.
Proof. induction a as [|c a IH]; [done|]. simpl. by rewrite <- IH. Qed.

Lemma startswith_append (p s : string) : startswith (p +:+ s) p = true.
Proof.
  unfold startswith. apply StrFacts.starts_with_spec.
  exists (chars s). apply chars_append.
Qed.

Lemma normalize_scheme (base_url : string) :
  startswith (normalize base_url) "http://"
  || startswith (normalize base_url) "https://" = true.
Proof.
  unfold normalize.
  destruct (startswith base_url "http://" || startswith base_url "https://")
    eqn:E; [done|].
  by rewrite (startswith_append "https://" base_url), orb_true_r.
Qed.

Lemma normalize_idem (base_url : string) :
  normalize (normalize base_url) = normalize base_url.
Proof.
  unfold normalize at 1. by rewrite normalize_scheme.
Qed.

End NormalizeFacts.

Module Served.
Import LogFacts.
Section Served.
Variable urljoin : string -> string -> result string.
Variable urlparse : string -> result parsed_url.
Variable net : nat -> string -> fetch_outcome.

#[local] Abbreviation retry := (attempts urljoin urlparse net).
#[local] Abbreviation process := (process_url urljoin urlparse net).
#[local] Abbreviation drain_loop := (drain urljoin urlparse net).
#[local] Abbreviation job := (run_job urljoin urlparse net).
#[local] Abbreviation page_result := (fun sp url =>
  emails ← extract_emails sp;
  found ← find_subpage_urls urljoin urlparse sp url;
  Ok (emails, elements found)).

Lemma lookup_kept (l evs : list event) (k : nat) (u : string) :
  gets l !! k = Some u -> gets (l ++ evs) !! k = Some u.
Proof. intros H. rewrite gets_app. by apply lookup_app_l_Some. Qed.

(** The counter of requests is the number of requests in the log, so
    the page of a result is the answer to a request of the log. *)
Lemma attempts_served (url : string) (max_retries : Z) (n : nat) (a : Z)
    (st st' : job_state) (r : result (gset string * list string)) :
  length (gets (log st)) = requests st ->
  retry url max_retries n a st = (r, st') ->
  length (gets (log st')) = requests st'
  /\ (exists evs, log st' = log st ++ evs)
  /\ (forall out, r = Ok out ->
        out = (∅, [])
        \/ exists k sp, gets (log st') !! k = Some url
                        /\ net k url = Rendered sp
                        /\ page_result sp url = Ok out).
Proof.
  revert a st. induction n as [|n IH]; intros a st Hc.
  - simpl. intros [= <- <-]. split; [done|].
    split; [exists []; by rewrite app_nil_r|]. intros out [= <-]. by left.
  - cbn [attempts].
    assert (length (gets (log (record_get url a st)))
            = requests (record_get url a st)) as Hc1.
    { simpl. rewrite gets_app, length_app, Hc. simpl. lia. }
    destruct (net (requests st) url) as [sp | e] eqn:Hnet.
    + intros [= <- <-]. split; [done|]. split; [by exists [Get url a]|].
      intros out Hout. right. exists (requests st), sp.
      split; [|by split].
      simpl. rewrite gets_app, lookup_app_r by lia.
      by rewrite Hc, Nat.sub_diag.
    + destruct e.
      2,3,4: (intros [= <- <-]; split; [done|];
              split; [by exists [Get url a] | done]).
      intros H. apply IH in H as (Hc' & (evs & Hl) & Hout).
      * split; [done|]. split; [|done].
        destruct (a <? max_retries - 1); simpl in Hl; eexists;
          rewrite Hl, <- !app_assoc; done.
      * destruct (a <? max_retries - 1); [|done].
        simpl. simpl in Hc1. rewrite gets_app. simpl. by rewrite app_nil_r.
Qed.

Lemma process_served (url : string) (max_retries : Z)
    (st st' : job_state) (r : result (gset string * list string)) :
  length (gets (log st)) = requests st ->
  process url max_retries st = (r, st') ->
  length (gets (log st')) = requests st'
  /\ (exists evs, log st' = log st ++ evs)
  /\ (forall out, r = Ok out ->
        out = (∅, [])
        \/ exists k sp, gets (log st') !! k = Some url
                        /\ net k url = Rendered sp
                        /\ page_result sp url = Ok out).
Proof.
  intros Hc. unfold process_url. destruct (bool_decide _).
  - intros [= <- <-]. split; [done|].
    split; [exists []; by rewrite app_nil_r|]. intros out [= <-]. by left.
  - intros H. by apply attempts_served in H.
Qed.

Lemma drain_served (max_subpages max_retries : Z) (frontier : list string)
    (pv : Z) (em : gset string) (st st' : job_state) (fin : loop_end) :
  length (gets (log st)) = requests st ->
  drain_loop max_subpages max_retries frontier pv em st = (fin, st') ->
  length (gets (log st')) = requests st'
  /\ (exists evs, log st' = log st ++ evs)
  /\ (forall e, e ∈ all_emails fin ->
        e ∈ em
        \/ exists k u sp emails subs,
             u ∈ frontier /\ gets (log st') !! k = Some u
             /\ net k u = Rendered sp
             /\ page_result sp u = Ok (emails, subs) /\ e ∈ emails).
Proof.
  revert pv em st. induction frontier as [|u rest IH]; intros pv em st Hc.
  - simpl. intros [= <- <-]. split; [done|].
    split; [exists []; by rewrite app_nil_r|]. intros e He. by left.
  - simpl. destruct (Z.ltb_spec pv max_subpages) as [Hpv | Hpv].
    2: { intros [= <- <-]. split; [done|].
         split; [exists []; by rewrite app_nil_r|]. intros e He. by left. }
    destruct (bool_decide (u ∈ visited_urls st)).
    + intros H. apply IH in H as (Hc' & Hl & Hem); [|done].
      split; [done|]. split; [done|]. intros e He.
      destruct (Hem e He) as [? | (k & v & sp & es & ss & Hv & ?)];
        [by left|].
      right. exists k, v, sp, es, ss. split; [by right | done].
    + destruct (process u max_retries (record PoliteDelay st))
        as [r st1] eqn:Hp.
      apply process_served in Hp as (Hc1 & (evs1 & Hl1) & Hout1).
      2: { simpl. rewrite gets_app. simpl. by rewrite app_nil_r. }
      simpl in Hl1.
      destruct r as [[emails subs] | e].
      * intros H. apply IH in H as (Hc' & (evs & Hl) & Hem); [|done].
        split; [done|]. split.
        { eexists. rewrite Hl, Hl1, <- !app_assoc. done. }
        intros x Hx.
        destruct (Hem x Hx)
          as [Hx' | (k & v & sp & es & ss & Hv & Hk & ?)].
        -- apply elem_of_union in Hx' as [Hx' | Hx']; [by left|].
           right.
           destruct (Hout1 _ eq_refl)
             as [[= -> ->] | (k & sp & Hk & Hn & Hr)];
             [by apply not_elem_of_empty in Hx'|].
           exists k, u, sp, emails, subs. split; [by left|].
           split; [rewrite Hl; by apply lookup_kept | done].
        -- right. exists k, v, sp, es, ss. split; [by right | done].
      * intros [= <- <-]. split; [done|]. split.
        { eexists. rewrite Hl1, <- !app_assoc. done. }
        intros x Hx. by left.
Qed.

Lemma job_served (base_url : string) (max_subpages max_retries : Z) :
  let j := job base_url max_subpages max_retries in
  forall e, e ∈ job_emails j ->
    exists k u sp emails,
      gets (log (job_state_end j)) !! k = Some u
      /\ net k u = Rendered sp /\ extract_emails sp = Ok emails
      /\ e ∈ emails.
Proof.
  unfold run_job.
  destruct (process (normalize base_url) max_retries initial_state)
    as [r st1] eqn:Hp.
  apply process_served in Hp as (Hc1 & _ & Hout1); [|done].
  destruct r as [[emails subs] | e]; simpl.
  2: { intros x Hx. by apply not_elem_of_empty in Hx. }
  destruct (drain_loop max_subpages max_retries subs 1 (∅ ∪ emails) st1)
    as [fin st2] eqn:Hd.
  apply drain_served in Hd as (_ & (evs & Hl) & Hem); [|done]. simpl.
  intros x Hx.
  destruct (Hem x Hx) as [Hx' | (k & u & sp & es & ss & _ & Hk & Hn & Hp & Hxe)].
  - apply elem_of_union in Hx' as [Hx' | Hx'];
      [by apply not_elem_of_empty in Hx'|].
    destruct (Hout1 _ eq_refl) as [[= -> ->] | (k & sp & Hk & Hn & Hp)];
      [by apply not_elem_of_empty in Hx'|].
    exists k, (normalize base_url), sp, emails.
    split; [rewrite Hl; by apply lookup_kept|]. split; [done|].
    split; [by eapply CrawlMore.page_result_emails | done].
  - exists k, u, sp, es. split; [done|]. split; [done|].
    split; [by eapply CrawlMore.page_result_emails | done].
Qed.

End Served.
End Served.

Section CrawlerExtras.
Variable urljoin : string -> string -> result string.
Variable urlparse : string -> result parsed_url.
Variable net : nat -> string -> fetch_outcome.

(** X7. A job makes at most [max_retries] requests for each page it
    processes, the seed and at most [max_subpages - 1] subpages: with
    the defaults of [find_emails], 2 and 10, at most 20 requests. *)
Theorem job_request_bound (base_url : string) (max_subpages max_retries : Z) :
  (length (gets (log (job_state_end
      (run_job urljoin urlparse net base_url max_subpages max_retries))))
   <= Z.to_nat max_retries * (1 + Z.to_nat (max_subpages - 1)))%nat
  /\ (length (gets (log (job_state_end
         (run_job urljoin urlparse net base_url 10 2)))) <= 20)%nat.
Proof.
  split.
  - apply (CrawlMore.job_more urljoin urlparse net).
  - apply (CrawlMore.job_more urljoin urlparse net base_url 10 2).
Qed.

(** X8. [process_url] never takes a URL out of the visited set and
    leaves its own URL in it, whatever the outcome of the fetch; at the
    end of a job every URL that was requested is in the visited set. *)
Theorem visited_set_grows (base_url : string) (max_subpages max_retries : Z) :
  (forall url st r st',
     process_url urljoin urlparse net url max_retries st = (r, st') ->
     visited_urls st ⊆ visited_urls st' /\ url ∈ visited_urls st')
  /\ (forall u,
        u ∈ gets (log (job_state_end
               (run_job urljoin urlparse net base_url max_subpages
                  max_retries))) ->
        u ∈ visited_urls (job_state_end
               (run_job urljoin urlparse net base_url max_subpages
                  max_retries))).
Proof.
  split.
  - intros url st r st' H.
    by apply CrawlMore.process_more in H as (_ & _ & Hsub & Hin & _).
  - apply (CrawlMore.job_more urljoin urlparse net).
Qed.

(** X9. The first request of a job, if it makes one, is for the
    normalized seed. The normalized seed begins with http:// or
    https://, and normalizing it again changes nothing. *)
Theorem first_request_is_normalized_seed (base_url : string)
    (max_subpages max_retries : Z) :
  (forall u rest,
     gets (log (job_state_end
        (run_job urljoin urlparse net base_url max_subpages max_retries)))
     = u :: rest ->
     u = normalize base_url)
  /\ Str.startswith (normalize base_url) "http://"
     || Str.startswith (normalize base_url) "https://" = true
  /\ normalize (normalize base_url) = normalize base_url.
Proof.
  split; [apply (CrawlMore.job_more urljoin urlparse net)|].
  split; [apply NormalizeFacts.normalize_scheme
         | apply NormalizeFacts.normalize_idem].
Qed.

(** X10. Every address in the list that [find_emails] returns is
    accepted by the validator and was extracted from a page that the
    network gave to the job: the page is the answer to a request that
    the job made, the request number [k] of its log, for the URL [u]. No
    address is listed twice. *)
Theorem find_emails_valid_and_found (base_url : string)
    (max_subpages max_retries : Z) (emails : list string) :
  find_emails urljoin urlparse net base_url max_subpages max_retries
  = Ok emails ->
  NoDup emails
  /\ forall e, In e emails ->
       validate_email e = true
       /\ exists k u sp found,
            gets (log (job_state_end
                         (run_job urljoin urlparse net base_url max_subpages
                            max_retries))) !! k = Some u
            /\ net k u = Rendered sp /\ extract_emails sp = Ok found
            /\ e ∈ found.
Proof.
  unfold find_emails. intros [= <-]. split; [apply NoDup_elements|].
  intros e He. apply list_elem_of_In, elem_of_elements in He.
  destruct (Served.job_served urljoin urlparse net base_url max_subpages
              max_retries e He) as (k & u & sp & found & Hk & Hn & Hx & Hin).
  split; [by apply (Accepted.extract_valid sp found Hx)|].
  by exists k, u, sp, found.
Qed.

End CrawlerExtras.

Lemma find_emails_valid_and_found_witness :
  NoDup ["jane@acme.org"; "Jane@Acme.org"]%string
  /\ forall e, In e ["jane@acme.org"; "Jane@Acme.org"]%string ->
       validate_email e = true
       /\ exists k u sp found,
            gets (log (job_state_end
                         (run_job absolute_urljoin simple_urlparse script_net
                            "acme.org" 10 2))) !! k = Some u
            /\ script_net k u = Rendered sp /\ extract_emails sp = Ok found
            /\ e ∈ found.
Proof.
  apply (find_emails_valid_and_found absolute_urljoin simple_urlparse
           script_net "acme.org" 10 2).
  by vm_compute.
Defined.

(** ** Failures and recoveries *)

Module Recovery.
Section Recovery.
Variable urljoin : string -> string -> result string.
Variable urlparse : string -> result parsed_url.
Variable net : nat -> string -> fetch_outcome.

#[local] Abbreviation retry := (attempts urljoin urlparse net).
#[local] Abbreviation drain_loop := (drain urljoin urlparse net).

Lemma attempts_recover (url : string) (max_retries : Z) (sp : soup) (j : nat) :
  forall (n : nat) (a : Z) (st : job_state),
    (j < n)%nat -> a + Z.of_nat n = max_retries ->
    (forall i, (i < j)%nat ->
               net (requests st + i)%nat url = Failed RequestException) ->
    net (requests st + j)%nat url = Rendered sp ->
    exists st',
      retry url max_retries n a st
      = ((emails ← extract_emails sp;
          found ← find_subpage_urls urljoin urlparse sp url;
          Ok (emails, elements found)), st')
      /\ visited_urls st' = visited_urls st
      /\ log st'
         = log st
           ++ flat_map (fun k => [Get url k; Backoff (2 * (k + 1))])
                (seqZ a (Z.of_nat j))
           ++ [Get url (a + Z.of_nat j)].
Proof.
  induction j as [|j IH]; intros n a st Hn Ha Hfail Hok.
  - destruct n as [|n]; [lia|]. cbn [attempts].
    rewrite Nat.add_0_r in Hok. rewrite Hok.
    eexists. split; [reflexivity|]. split; [done|].
    simpl. by rewrite Z.add_0_r.
  - destruct n as [|n]; [lia|]. cbn [attempts].
    pose proof (Hfail O ltac:(lia)) as H0. rewrite Nat.add_0_r in H0.
    rewrite H0.
    assert ((a <? max_retries - 1) = true) as -> by lia.
    destruct (IH n (a + 1)
                (record (Backoff (2 * (a + 1))) (record_get url a st)))
      as (st' & -> & Hv & Hl).
    + lia.
    + lia.
    + intros i Hi. cbn [requests record record_get].
      replace (S (requests st) + i)%nat with (requests st + S i)%nat by lia.
      apply Hfail. lia.
    + cbn [requests record record_get].
      replace (S (requests st) + j)%nat with (requests st + S j)%nat by lia.
      exact Hok.
    + exists st'. split; [done|]. split; [done|].
      rewrite Hl. simpl log. rewrite (seqZ_cons a) by lia.
      replace (Z.succ a) with (a + 1) by lia.
      replace (Z.pred (Z.of_nat (S j))) with (Z.of_nat j) by lia.
      replace (a + 1 + Z.of_nat j) with (a + Z.of_nat (S j)) by lia.
      simpl. by rewrite <- !app_assoc.
Qed.



End Recovery.
End Recovery.

Section RecoveryExtras.
Variable urljoin : string -> string -> result string.
Variable urlparse : string -> result parsed_url.
Variable net : nat -> string -> fetch_outcome.

(** X11. When the first [j] requests for a fresh URL fail at the network
    level and the next one is answered, with [j < max_retries], the
    fetch returns what the extractor and the discoverer find on that
    page; its log is the [j] failed tries, each followed by its sleep of
    2, 4, ... seconds, and the answered request. *)
Theorem process_url_recovers (url : string) (max_retries : Z) (sp : soup)
    (j : nat) (st : job_state) :
  url ∉ visited_urls st -> Z.of_nat j < max_retries ->
  (forall i, (i < j)%nat ->
             net (requests st + i)%nat url = Failed RequestException) ->
  net (requests st + j)%nat url = Rendered sp ->
  exists st',
    process_url urljoin urlparse net url max_retries st
    = ((emails ← extract_emails sp;
        found ← find_subpage_urls urljoin urlparse sp url;
        Ok (emails, elements found)), st')
    /\ log st' = log st ++ recovered_log url j.
Proof.
  intros Hfresh Hj Hfail Hok. unfold process_url.
  rewrite bool_decide_eq_false_2 by done.
  destruct (Recovery.attempts_recover urljoin urlparse net url max_retries sp
              j (Z.to_nat max_retries) 0 (mark_visited url st))
    as (st' & -> & _ & Hl); [lia | lia | done | done |].
  exists st'. split; [done|]. by rewrite Hl.
Qed.


(** X13. When the first request of a job is answered with a page on
    which the extraction or the discovery raises, the job makes no other
    request and returns the empty list. *)
Theorem seed_exception_gives_nothing (base_url : string)
    (max_subpages max_retries : Z) (sp : soup) (e : exn) :
  0 < max_retries ->
  net O (normalize base_url) = Rendered sp ->
  extract_emails sp = Raise e
  \/ (exists emails, extract_emails sp = Ok emails)
     /\ find_subpage_urls urljoin urlparse sp (normalize base_url) = Raise e ->
  find_emails urljoin urlparse net base_url max_subpages max_retries = Ok []
  /\ gets (log (job_state_end
        (run_job urljoin urlparse net base_url max_subpages max_retries)))
     = [normalize base_url].
Proof.
  intros Hmr Hseed Hraise. unfold find_emails, run_job, process_url.
  rewrite bool_decide_eq_false_2 by apply not_elem_of_empty.
  destruct (Z.to_nat max_retries) as [|n] eqn:En; [lia|].
  cbn [attempts]. simpl requests. rewrite Hseed.
  destruct Hraise as [-> | [[emails ->] ->]]; simpl;
    by rewrite elements_empty.
Qed.

End RecoveryExtras.

Lemma process_url_recovers_witness :
  exists st',
    process_url absolute_urljoin simple_urlparse
      (fun k url => if (k <? 1)%nat then Failed RequestException
                    else Rendered contact_page)
      "https://site.test/contact7" 2 initial_state
    = ((emails ← extract_emails contact_page;
        found ← find_subpage_urls absolute_urljoin simple_urlparse
                  contact_page "https://site.test/contact7";
        Ok (emails, elements found)), st')
    /\ log st' = log initial_state
                 ++ recovered_log "https://site.test/contact7" 1.
Proof.
  apply process_url_recovers.
  - simpl. apply not_elem_of_empty.
  - lia.
  - intros i Hi. simpl. destruct i; [reflexivity | lia].
  - reflexivity.
Defined.


Lemma seed_exception_gives_nothing_witness :
  find_emails absolute_urljoin simple_urlparse
    (fun k url => Rendered (Soup [] ["a@b.co"%string] ["&#1114112;"%string]))
    "b.co" 10 2 = Ok []
  /\ gets (log (job_state_end
        (run_job absolute_urljoin simple_urlparse
           (fun k url =>
              Rendered (Soup [] ["a@b.co"%string] ["&#1114112;"%string]))
           "b.co" 10 2)))
     = [normalize "b.co"].
Proof.
  apply (seed_exception_gives_nothing absolute_urljoin simple_urlparse _
           "b.co" 10 2
           (Soup [] ["a@b.co"%string] ["&#1114112;"%string]) ValueError).
  - lia.
  - reflexivity.
  - left. by vm_compute.
Defined.

(** ** Subpage discoverer *)

Module Discovery.
Section Discovery.
Variable urljoin : string -> string -> result string.
Variable urlparse : string -> result parsed_url.

#[local] Abbreviation loop := (subpage_loop urljoin urlparse).

Lemma subpage_loop_spec (nl base : string) (tags : list a_tag)
    (acc found : gset string) :
  loop nl base tags acc = Ok found ->
  Forall (resolvable urljoin urlparse base) tags
  /\ forall u, u ∈ found <->
               u ∈ acc \/ exists a, In a tags
                                    /\ candidate urljoin urlparse nl base a u.
Proof.
  revert acc. induction tags as [|a rest IH]; intros acc; simpl.
  - intros [= <-]. split; [constructor|].
    intros u. split; [by left | by intros [? | (a & [] & _)]].
  - destruct (urljoin base (href a)) as [abs_url|] eqn:Hj; [|done]. simpl.
    destruct (urlparse abs_url) as [parsed|] eqn:Hp; [|done]. simpl.
    assert (resolvable urljoin urlparse base a) as Hres
      by (by exists abs_url, parsed).
    assert (forall u, candidate urljoin urlparse nl base a u <->
              u = abs_url
              /\ (has_keyword (Str.lower (Str.strip (link_text a)))
                  || has_keyword (Str.lower (path parsed)))
                 && ((netloc parsed =? nl)%string
                     && ((scheme parsed =? "http")%string
                         || (scheme parsed =? "https")%string)) = true)
      as Hcand.
    { intros u. unfold candidate. rewrite Hj. split.
      - intros (p & [= <-] & Hp' & Hk & Hn & Hs).
        rewrite Hp in Hp'. injection Hp' as <-. split; [done|].
        rewrite Hk. simpl. apply andb_true_iff. split.
        + by apply String.eqb_eq.
        + apply orb_true_iff. destruct Hs as [Hs | Hs]; [left | right];
            by apply String.eqb_eq.
      - intros [-> H]. apply andb_true_iff in H as [Hk H].
        apply andb_true_iff in H as [Hn Hs]. exists parsed.
        split; [done|]. split; [done|]. split; [done|].
        split; [by apply String.eqb_eq|].
        apply orb_true_iff in Hs as [Hs | Hs]; [left | right];
          by apply String.eqb_eq. }
    destruct ((has_keyword (Str.lower (Str.strip (link_text a)))
               || has_keyword (Str.lower (path parsed)))
              && ((netloc parsed =? nl)%string
                  && ((scheme parsed =? "http")%string
                      || (scheme parsed =? "https")%string))) eqn:E;
      intros H; apply IH in H as [Hall Hmem];
      (split; [by constructor|]); intros u; rewrite Hmem.
    + rewrite elem_of_union, elem_of_singleton. split.
      * intros [[-> | Hu] | (b & Hb & Hc)].
        -- right. exists a. split; [by left|]. by apply Hcand.
        -- by left.
        -- right. exists b. split; [by right | done].
      * intros [Hu | (b & [<- | Hb] & Hc)].
        -- left. by right.
        -- left. left. by apply Hcand in Hc as [-> _].
        -- right. by exists b.
    + split.
      * intros [Hu | (b & Hb & Hc)]; [by left|].
        right. exists b. split; [by right | done].
      * intros [Hu | (b & [<- | Hb] & Hc)]; [by left | | right; by exists b].
        apply Hcand in Hc as [_ Hc]. congruence.
Qed.

Lemma subpage_loop_total (nl base : string) (tags : list a_tag)
    (acc : gset string) :
  Forall (resolvable urljoin urlparse base) tags ->
  exists found, loop nl base tags acc = Ok found.
Proof.
  intros Hall. revert acc.
  induction Hall as [|a rest (u & p & Hj & Hp) _ IH]; intros acc; simpl.
  - by eexists.
  - rewrite Hj. simpl. rewrite Hp. simpl.
    destruct (_ && _); apply IH.
Qed.

End Discovery.
End Discovery.

Section DiscoveryExtras.
Variable urljoin : string -> string -> result string.
Variable urlparse : string -> result parsed_url.

(** X14. The set that [find_subpage_urls] returns holds exactly the URLs
    to which a link of the page resolves, on the host of the page, with
    scheme http or https, and with a keyword in the lowercased text of
    the link or in the lowercased path of the URL. *)
Theorem find_subpage_urls_exact (sp : soup) (base_url : string)
    (found : gset string) :
  find_subpage_urls urljoin urlparse sp base_url = Ok found ->
  forall u,
    u ∈ found <->
    exists base a,
      urlparse base_url = Ok base /\ In a (a_tags sp)
      /\ candidate urljoin urlparse (netloc base) base_url a u.
Proof.
  unfold find_subpage_urls.
  destruct (urlparse base_url) as [base|] eqn:Hb; [|done]. simpl.
  intros H u. apply Discovery.subpage_loop_spec in H as [_ Hmem].
  rewrite Hmem. split.
  - intros [Hu | (a & Ha & Hc)]; [by apply not_elem_of_empty in Hu|].
    by exists base, a.
  - intros (base' & a & [= <-] & Ha & Hc). right. by exists a.
Qed.

(** X15. [find_subpage_urls] returns a set exactly when the URL of the
    page can be parsed and every link of the page can be resolved and
    parsed: one link on which [urljoin] or [urlparse] raises makes it
    raise, whatever the other links are. *)
Theorem find_subpage_urls_all_or_nothing (sp : soup) (base_url : string) :
  (exists found, find_subpage_urls urljoin urlparse sp base_url = Ok found)
  <->
  (exists base, urlparse base_url = Ok base)
  /\ Forall (resolvable urljoin urlparse base_url) (a_tags sp).
Proof.
  unfold find_subpage_urls. split.
  - intros [found H].
    destruct (urlparse base_url) as [base|] eqn:Hb; [|done]. simpl in H.
    split; [by eexists|].
    by apply Discovery.subpage_loop_spec in H as [Hall _].
  - intros [[base ->] Hall]. simpl.
    by apply Discovery.subpage_loop_total.
Qed.

End DiscoveryExtras.

Lemma find_subpage_urls_exact_witness :
  "https://site.test/contact7"%string
    ∈ (list_to_set (map href contact_links) : gset string) <->
  exists base a,
    simple_urlparse "https://site.test" = Ok base /\ In a (a_tags home_page)
    /\ candidate absolute_urljoin simple_urlparse (netloc base)
         "https://site.test" a "https://site.test/contact7".
Proof.
  apply (find_subpage_urls_exact absolute_urljoin simple_urlparse home_page
           "https://site.test").
  by vm_compute.
Defined.

(** ** Numeric entities *)

Module Entities.
Import Str Re.

Lemma sub_skip {A B : Type} (p : pattern A) (inj : A -> B)
    (repl : list (list A) -> result (list B)) (pre s : list A) :
  sub p inj repl (length pre) (pre ++ s) = sub p inj repl O s.
Proof. induction pre as [|a pre IH]; [done | apply IH]. Qed.

Lemma entity_match (ds rest : list ascii) :
  ds <> [] -> Forall (fun d => is_digit (code d) = true) ds ->
  match_here (Pat.entity_pattern code) anywhere
    (["&"%char] ++ ["#"%char] ++ ds ++ [";"%char] ++ rest)
  = Some [ ["&"%char]; ["#"%char]; ds; [";"%char] ].
Proof.
  intros Hne Hds. unfold Pat.entity_pattern.
  apply ConcatFacts.match_one; [reflexivity|].
  apply ConcatFacts.match_one; [reflexivity|].
  apply ConcatFacts.match_run; [reflexivity | | exact Hds | reflexivity |].
  { destruct ds; [done | simpl; lia]. }
  apply ConcatFacts.match_one; [reflexivity|]. reflexivity.
Qed.

Lemma decode_char (a : ascii) (rest : list ascii) :
  is_char 38 (code a) = false ->
  decode_entities (text (a :: rest))
  = (out ← decode_entities (text rest); Ok (code a :: out)).
Proof.
  intros Ha. unfold decode_entities. rewrite !StrFacts.chars_text.
  simpl. unfold compose. rewrite Ha. simpl. reflexivity.
Qed.

Lemma decode_entity (ds rest : list ascii) :
  ds <> [] -> Forall (fun d => is_digit (code d) = true) ds ->
  decode_entities (text (chars "&#" ++ ds ++ ";"%char :: rest))
  = if (int_max_str_digits <? N.of_nat (length ds))%N then Raise ValueError
    else if (digits_value ds <? 1114112)%N
    then (out ← decode_entities (text rest); Ok (digits_value ds :: out))
    else if (digits_value ds <? 2147483648)%N then Raise ValueError
    else Raise OverflowError.
Proof.
  intros Hne Hds. unfold decode_entities. rewrite !StrFacts.chars_text.
  assert (match_here (Pat.entity_pattern code) anywhere
            ("&"%char :: ("#"%char :: ds ++ [";"%char]) ++ rest)
          = Some [ ["&"%char]; ["#"%char]; ds; [";"%char] ]) as Hm
    by (simpl app; rewrite <- app_assoc; by apply entity_match).
  replace (chars "&#" ++ ds ++ ";"%char :: rest)
    with ("&"%char :: ("#"%char :: ds ++ [";"%char]) ++ rest)
    by (simpl; by rewrite <- app_assoc).
  cbn [sub]. rewrite Hm. cbn [nth Pat.entity_group]. unfold int_of_digits.
  destruct (int_max_str_digits <? N.of_nat (length ds))%N; [done|].
  cbn [mbind result_bind]. unfold chr.
  destruct (digits_value ds <? 1114112)%N;
    [|by destruct (digits_value ds <? 2147483648)%N].
  replace (length (concat [["&"%char]; ["#"%char]; ds; [";"%char]]) - 1)%nat
    with (length ("#"%char :: ds ++ [";"%char])).
  2: { simpl. rewrite !length_app. simpl. lia. }
  rewrite sub_skip. simpl.
  by destruct (sub _ _ _ O rest).
Qed.

Lemma decode_raises_which (t : string) (e : exn) :
  decode_entities t = Raise e -> e = ValueError \/ e = OverflowError.
Proof.
  unfold decode_entities. generalize (chars t) as s. generalize O as skip.
  intros skip s. revert skip. induction s as [|a s IH]; intros skip; [done|].
  cbn [sub]. destruct skip as [|n]; [|apply IH].
  destruct (match_here _ anywhere (a :: s)) as [taken|].
  - unfold int_of_digits at 1.
    destruct (int_max_str_digits <? _)%N; [intros [= <-]; by left|].
    cbn [mbind result_bind]. unfold chr at 1.
    destruct (_ <? 1114112)%N.
    + destruct (sub _ _ _ _ s) as [out|e'] eqn:E; [done|].
      intros [= <-]. by apply IH in E.
    + destruct (_ <? 2147483648)%N; intros [= <-]; [by left | by right].
  - destruct (sub _ _ _ O s) as [out|e'] eqn:E; [done|].
    intros [= <-]. by apply IH in E.
Qed.

Lemma decode_after_plain (pre s : list ascii) :
  Forall (fun a => is_char 38 (code a) = false) pre ->
  decode_entities (text (pre ++ s))
  = (out ← decode_entities (text s); Ok (map code pre ++ out)).
Proof.
  induction 1 as [|a pre Ha _ IH].
  - simpl. by destruct (decode_entities (text s)).
  - change ((a :: pre) ++ s) with (a :: pre ++ s).
    rewrite decode_char by done. rewrite IH.
    by destruct (decode_entities (text s)).
Qed.

End Entities.

(** X16. The entity decoder works through the text from left to right:
    a character other than the ampersand is kept, and an entity of one
    or more decimal digits is replaced by the character of that number,
    when it has at most 4300 digits and the number is below 0x110000.
    Otherwise the decoder raises, whatever follows: [ValueError] for more
    than 4300 digits or a number below 2**31, [OverflowError] from 2**31
    on. It raises no other exception. *)
Theorem decode_entities_steps :
  (forall a rest,
     Str.is_char 38 (Str.code a) = false ->
     decode_entities (Str.text (a :: rest))
     = (out ← decode_entities (Str.text rest); Ok (Str.code a :: out)))
  /\ (forall ds rest,
        ds <> [] -> Forall (fun d => Str.is_digit (Str.code d) = true) ds ->
        decode_entities (Str.text (Str.chars "&#" ++ ds ++ ";"%char :: rest))
        = if (int_max_str_digits <? N.of_nat (length ds))%N
          then Raise ValueError
          else if (digits_value ds <? 1114112)%N
          then (out ← decode_entities (Str.text rest);
                Ok (digits_value ds :: out))
          else if (digits_value ds <? 2147483648)%N then Raise ValueError
          else Raise OverflowError)
  /\ (forall t e,
        decode_entities t = Raise e -> e = ValueError \/ e = OverflowError).
Proof.
  split; [exact Entities.decode_char|].
  split; [exact Entities.decode_entity | exact Entities.decode_raises_which].
Qed.

Lemma decode_entities_steps_witness :
  decode_entities "x" = Ok [120]%N
  /\ decode_entities "&#64;y" = Ok [64; 121]%N
  /\ decode_entities "&#1114112;y" = Raise ValueError
  /\ decode_entities "&#2147483648;y" = Raise OverflowError
  /\ decode_entities
       (Str.text (Str.chars "&#" ++ replicate 4301 "0"%char ++ [";"%char]))
     = Raise ValueError.
Proof.
  destruct decode_entities_steps as (H1 & H2 & _).
  split; [|split; [|split; [|split]]].
  - exact (H1 "x"%char [] eq_refl).
  - refine (H2 (Str.chars "64") (Str.chars "y") _ _);
      [discriminate | by repeat constructor].
  - refine (H2 (Str.chars "1114112") (Str.chars "y") _ _);
      [discriminate | by repeat constructor].
  - refine (H2 (Str.chars "2147483648") (Str.chars "y") _ _);
      [discriminate | by repeat constructor].
  - refine (eq_trans (H2 (replicate 4301 "0"%char) [] _ _) _).
    + discriminate.
    + by apply Forall_replicate.
    + by vm_compute.
Defined.

Module EntityRaise.
Import Str.

Lemma obfuscated_raises_which (t : string) (e : exn) :
  extract_obfuscated_emails t = Raise e -> e = ValueError \/ e = OverflowError.
Proof.
  unfold extract_obfuscated_emails.
  destruct (decode_entities t) as [d|e'] eqn:E; [done|].
  intros [= <-]. by apply Entities.decode_raises_which in E.
Qed.

Lemma obfuscated_raises (pre ds rest : list ascii) :
  Forall (fun a => is_char 38 (code a) = false) pre ->
  ds <> [] -> Forall (fun d => is_digit (code d) = true) ds ->
  (int_max_str_digits < N.of_nat (length ds) \/ 1114112 <= digits_value ds)%N ->
  extract_obfuscated_emails (text (pre ++ chars "&#" ++ ds ++ ";"%char :: rest))
  = Raise (if (int_max_str_digits <? N.of_nat (length ds))%N
              || (digits_value ds <? 2147483648)%N
           then ValueError else OverflowError).
Proof.
  intros Hpre Hne Hds Hbig. unfold extract_obfuscated_emails.
  rewrite (Entities.decode_after_plain pre _ Hpre).
  rewrite (Entities.decode_entity ds rest Hne Hds).
  destruct (N.ltb_spec int_max_str_digits (N.of_nat (length ds))); [done|].
  destruct Hbig as [Hbig | Hbig]; [lia|].
  assert ((digits_value ds <? 1114112)%N = false) as ->
    by (by apply N.ltb_ge).
  by destruct (digits_value ds <? 2147483648)%N.
Qed.

Lemma scripts_raise (scripts : list string) (acc : gset string) (t : string)
    (e : exn) :
  In t scripts -> extract_obfuscated_emails t = Raise e ->
  exists e', script_emails scripts acc = Raise e'
             /\ (e' = ValueError \/ e' = OverflowError).
Proof.
  revert acc. induction scripts as [|s rest IH]; intros acc Hin Ht; [done|].
  simpl. destruct (extract_obfuscated_emails s) as [found|e0] eqn:E.
  - destruct Hin as [-> | Hin]; [congruence | by apply IH].
  - exists e0. split; [done|]. by apply (obfuscated_raises_which s).
Qed.

End EntityRaise.

(** X17. A script that holds, with no ampersand before it, a numeric
    entity of more than 4300 digits or of a number from 0x110000 on
    makes the obfuscation extractor raise: [ValueError] for more than
    4300 digits or a number below 2**31, [OverflowError] otherwise. The
    extraction of the whole page then raises one of the two: the
    addresses of its links, of its text and of its other scripts are lost
    with it. *)
Theorem entity_out_of_range_raises (sp : soup) (pre ds rest : list ascii) :
  In (Str.text (pre ++ Str.chars "&#" ++ ds ++ ";"%char :: rest))
    (script_texts sp) ->
  Forall (fun a => Str.is_char 38 (Str.code a) = false) pre ->
  ds <> [] -> Forall (fun d => Str.is_digit (Str.code d) = true) ds ->
  (int_max_str_digits < N.of_nat (length ds) \/ 1114112 <= digits_value ds)%N ->
  extract_obfuscated_emails
    (Str.text (pre ++ Str.chars "&#" ++ ds ++ ";"%char :: rest))
  = Raise (if (int_max_str_digits <? N.of_nat (length ds))%N
              || (digits_value ds <? 2147483648)%N
           then ValueError else OverflowError)
  /\ exists e, extract_emails sp = Raise e
               /\ (e = ValueError \/ e = OverflowError).
Proof.
  intros Hin Hpre Hne Hds Hbig.
  pose proof (EntityRaise.obfuscated_raises pre ds rest Hpre Hne Hds Hbig)
    as Hraise.
  split; [done|]. unfold extract_emails.
  by eapply EntityRaise.scripts_raise.
Qed.

Lemma entity_out_of_range_raises_witness :
  extract_obfuscated_emails "t = '&#4294967296;'" = Raise OverflowError
  /\ exists e,
       extract_emails
         (Soup [ATag "mailto:a@b.co" "mail"] ["c@d.org"%string]
            ["var x = 1;"%string; "t = '&#4294967296;'"%string])
       = Raise e
       /\ (e = ValueError \/ e = OverflowError).
Proof.
  apply (entity_out_of_range_raises
           (Soup [ATag "mailto:a@b.co" "mail"] ["c@d.org"%string]
              ["var x = 1;"%string; "t = '&#4294967296;'"%string])
           (Str.chars "t = '") (Str.chars "4294967296") (Str.chars "'")).
  - simpl. right. left. reflexivity.
  - by repeat constructor.
  - discriminate.
  - by repeat constructor.
  - right. by vm_compute.
Defined.

(** ** Mailto links *)

Module Mailto.
Import Str Shapes.

Lemma remove_skip (old pre s : list ascii) :
  remove_aux old (length pre) (pre ++ s) = remove_aux old O s.
Proof. induction pre as [|a pre IH]; [done | apply IH]. Qed.

Lemma remove_absent (old s : list ascii) :
  ~ occurs_in old s -> remove_aux old O s = s.
Proof.
  induction s as [|a s IH]; intros Hno; [done|].
  cbn [remove_aux].
  destruct (starts_with old (a :: s)) eqn:E.
  - apply StrFacts.starts_with_spec in E as [post E].
    destruct Hno. exists [], post. by rewrite E.
  - f_equal. apply IH. intros (pre & post & ->).
    apply Hno. by exists (a :: pre), post.
Qed.

Lemma remove_prefix (old addr : list ascii) :
  old <> [] -> ~ occurs_in old addr ->
  remove_aux old O (old ++ addr) = addr.
Proof.
  intros Hne Hno. destruct old as [|c old']; [done|].
  change ((c :: old') ++ addr) with (c :: old' ++ addr).
  cbn [remove_aux].
  assert (starts_with (c :: old') (c :: old' ++ addr) = true) as ->
    by (apply StrFacts.starts_with_spec; by exists addr).
  replace (length (c :: old') - 1)%nat with (length old')
    by (simpl; lia).
  rewrite remove_skip. by apply remove_absent.
Qed.

Lemma before_char_absent (c : ascii) (l : list ascii) :
  ~ In c l -> before_char c l = l.
Proof.
  induction l as [|a l IH]; [done|]. intros Hn. simpl.
  destruct (Ascii.eqb a c) eqn:E.
  - apply Ascii.eqb_eq in E. destruct Hn. by left.
  - f_equal. apply IH. intros H. apply Hn. by right.
Qed.

Lemma mailto_address_plain (a : a_tag) (addr query : list ascii) :
  chars (href a) = chars "mailto:" ++ addr ++ query ->
  ~ In "?"%char addr -> query = [] \/ (exists q, query = "?"%char :: q) ->
  ~ occurs_in (chars "mailto:") addr ->
  mailto_address a = lower (strip (text addr)).
Proof.
  intros Hh Hq Hquery Hno. unfold mailto_address. do 2 f_equal.
  unfold remove_all, split_head. rewrite StrFacts.chars_text, Hh. f_equal.
  assert (~ In "?"%char (chars "mailto:" ++ addr)) as Hq'.
  { intros H. apply in_app_or in H as [H | H]; [|done].
    simpl in H. repeat (destruct H as [H | H]; [discriminate H|]). done. }
  assert (before_char "?" (chars "mailto:" ++ addr ++ query)
          = chars "mailto:" ++ addr) as ->.
  { destruct Hquery as [-> | [q ->]].
    - rewrite app_nil_r. by apply before_char_absent.
    - rewrite app_assoc. by apply StrFacts.before_char_split. }
  by apply remove_prefix.
Qed.

Lemma fold_grows {X : Type} (f : gset string -> X -> gset string)
    (xs : list X) (acc : gset string) :
  (forall acc x, acc ⊆ f acc x) -> acc ⊆ fold_left f xs acc.
Proof.
  intros Hf. revert acc. induction xs as [|x xs IH]; intros acc; [done|].
  simpl. etrans; [apply Hf | apply IH].
Qed.

Lemma add_if_grows (ok : bool) (e : string) (emails : gset string) :
  emails ⊆ add_if ok e emails.
Proof. unfold add_if. destruct ok; [apply union_subseteq_r | done]. Qed.

Lemma mailto_step_grows (emails : gset string) (a : a_tag) :
  emails ⊆ (if startswith (href a) "mailto:"
            then add_if (validate_email (mailto_address a))
                   (mailto_address a) emails
            else emails).
Proof. destruct (startswith _ _); [apply add_if_grows | done]. Qed.

Lemma mailto_found (sp : soup) (acc : gset string) (a : a_tag) :
  In a (a_tags sp) -> startswith (href a) "mailto:" = true ->
  validate_email (mailto_address a) = true ->
  mailto_address a ∈ mailto_emails sp acc.
Proof.
  unfold mailto_emails. generalize (a_tags sp) as tags.
  intros tags. revert acc. induction tags as [|b tags IH]; intros acc Hin Hs Hv;
    [done|].
  destruct Hin as [-> | Hin]; [|by apply IH].
  cbn [fold_left]. fold (mailto_address a). rewrite Hs, Hv.
  apply (fold_grows _ tags); [intros ? ?; apply mailto_step_grows|].
  apply elem_of_union. left. by apply elem_of_singleton.
Qed.

Lemma text_grows (sp : soup) (acc : gset string) : acc ⊆ text_emails sp acc.
Proof. apply fold_grows. intros ? ?. apply add_if_grows. Qed.

Lemma scripts_grow (scripts : list string) (acc emails : gset string) :
  script_emails scripts acc = Ok emails -> acc ⊆ emails.
Proof.
  revert acc. induction scripts as [|t rest IH]; intros acc; simpl.
  - by intros [= <-].
  - destruct (extract_obfuscated_emails t) as [found|]; [|done].
    intros H. apply IH in H. etrans; [apply union_subseteq_l | exact H].
Qed.

End Mailto.

(** X18. A link whose target is mailto: followed by an address, and
    then nothing or a query that begins with a question mark, gives the
    stripped, lowercased address: when the validator accepts it, it is
    in the set that [extract_emails] returns for the page. The address
    itself must hold no question mark and no further mailto: prefix. *)
Theorem mailto_address_extracted (sp : soup) (a : a_tag)
    (addr query : list ascii) (emails : gset string) :
  In a (a_tags sp) ->
  Str.chars (href a) = Str.chars "mailto:" ++ addr ++ query ->
  ~ In "?"%char addr -> query = [] \/ (exists q, query = "?"%char :: q) ->
  ~ Shapes.occurs_in (Str.chars "mailto:") addr ->
  validate_email (Str.lower (Str.strip (Str.text addr))) = true ->
  extract_emails sp = Ok emails ->
  Str.lower (Str.strip (Str.text addr)) ∈ emails.
Proof.
  intros Hin Hh Hq Hquery Hno Hv Hex.
  rewrite <- (Mailto.mailto_address_plain a addr query) in * by done.
  unfold extract_emails in Hex. apply Mailto.scripts_grow in Hex.
  apply Hex, Mailto.text_grows. apply Mailto.mailto_found; [done | | done].
  unfold Str.startswith. apply StrFacts.starts_with_spec.
  by exists (addr ++ query).
Qed.

Lemma mailto_address_extracted_witness :
  Str.lower (Str.strip (Str.text (Str.chars " Bob@Site.ORG ")))
    ∈ ({[ "bob@site.org"%string ]} : gset string).
Proof.
  apply (mailto_address_extracted
           (Soup [ATag "mailto: Bob@Site.ORG ?subject=Hello" "Mail us"] [] [])
           (ATag "mailto: Bob@Site.ORG ?subject=Hello" "Mail us")
           (Str.chars " Bob@Site.ORG ") (Str.chars "?subject=Hello")).
  - left. reflexivity.
  - reflexivity.
  - simpl. intros H.
    repeat (destruct H as [H | H]; [discriminate H|]). exact H.
  - right. by eexists.
  - intros H. apply StrFacts.contains_chars_spec in H. discriminate H.
  - reflexivity.
  - by vm_compute.
Defined.

Module KeywordFacts.

Ltac pick_core l :=
  lazymatch l with
  | ?c :: ?l' =>
      first [ exists c; split; [simpl; tauto | reflexivity] | pick_core l' ]
  end.

Lemma keyword_has_core (k : string) :
  In k keywords ->
  exists c, In c core_keywords /\ Str.contains c k = true.
Proof.
  unfold keywords. simpl. intros H.
  repeat (destruct H as [<- | H];
          [let l := eval cbv delta [core_keywords] in core_keywords in
           pick_core l |]).
  done.
Qed.

Lemma core_is_keyword (c : string) : In c core_keywords -> In c keywords.
Proof.
  unfold core_keywords, keywords. simpl. intros H.
  repeat (destruct H as [<- | H]; [tauto|]). done.
Qed.

End KeywordFacts.

(** X19. The keywords contact us, about us, reach us and meet the team
    never decide whether a link is followed: a text holds one of the
    sixteen keywords exactly when it holds one of the other twelve. *)
Theorem compound_keywords_redundant (s : string) :
  has_keyword s
  = existsb (fun keyword => Str.contains keyword s) core_keywords.
Proof.
  unfold has_keyword. apply eq_true_iff_eq. rewrite !existsb_exists. split.
  - intros (k & Hin & Hk).
    destruct (KeywordFacts.keyword_has_core k Hin) as (c & Hc & Hck).
    exists c. split; [done|]. by apply (ColumnFacts.contains_trans c k s).
  - intros (c & Hin & Hc). exists c. split; [|done].
    by apply KeywordFacts.core_is_keyword.
Qed.

(* ===================================================================== *)
(** ** The order and the pauses of the loop of [find_emails] *)

Module LoopFacts.
Import LogFacts.
Section Loop.
Variable urljoin : string -> string -> result string.
Variable urlparse : string -> result parsed_url.
Variable net : nat -> string -> fetch_outcome.

#[local] Abbreviation retry := (attempts urljoin urlparse net).
#[local] Abbreviation process := (process_url urljoin urlparse net).
#[local] Abbreviation drain_loop := (drain urljoin urlparse net).
#[local] Abbreviation job := (run_job urljoin urlparse net).

Lemma delays_app (l1 l2 : list event) :
  delays (l1 ++ l2) = (delays l1 + delays l2)%nat.
Proof. unfold delays. by rewrite omap_app, length_app. Qed.

Lemma delays_snoc (l : list event) (e : event) :
  e <> PoliteDelay -> delays (l ++ [e]) = delays l.
Proof.
  intros H. rewrite delays_app.
  destruct e; [| |done]; change (delays [_]) with O; lia.
Qed.

(** [process_url] never sleeps the polite delay. *)
Lemma attempts_no_delay (url : string) (max_retries : Z) (n : nat) (a : Z)
    (st st' : job_state) (r : result (gset string * list string)) :
  retry url max_retries n a st = (r, st') ->
  delays (log st') = delays (log st).
Proof.
  revert a st. induction n as [|n IH]; intros a st; cbn [attempts].
  - by intros [= _ <-].
  - destruct (net (requests st) url) as [sp | e].
    + intros [= _ <-]. cbn [log record_get]. by apply delays_snoc.
    + destruct e.
      * intros H. apply IH in H. rewrite H.
        destruct (a <? max_retries - 1); cbn [log record record_get];
          by rewrite !delays_snoc.
      * intros [= _ <-]. cbn [log record_get]. by apply delays_snoc.
      * intros [= _ <-]. cbn [log record_get]. by apply delays_snoc.
      * intros [= _ <-]. cbn [log record_get]. by apply delays_snoc.
Qed.

Lemma process_no_delay (url : string) (max_retries : Z)
    (st st' : job_state) (r : result (gset string * list string)) :
  process url max_retries st = (r, st') ->
  delays (log st') = delays (log st).
Proof.
  unfold process_url. destruct (bool_decide _).
  - by intros [= _ <-].
  - intros H. by apply attempts_no_delay in H.
Qed.

(** The loop: what it fetches is taken from the frontier in its order,
    and where its counter and its pauses end. *)
Lemma drain_account (max_subpages max_retries : Z) (frontier : list string)
    (pv : Z) (em : gset string) (st st' : job_state) (fin : loop_end) :
  drain_loop max_subpages max_retries frontier pv em st = (fin, st') ->
  (exists new,
     fetches (log st') = fetches (log st) ++ new
     /\ new `sublist_of` frontier
     /\ (0 < max_retries ->
         delays (log st') = (delays (log st) + length new)%nat))
  /\ pv <= pages_visited fin <= Z.max pv max_subpages
  /\ delays (log st')
     = (delays (log st) + Z.to_nat (pages_visited fin - pv)
        + match raised fin with Some _ => 1 | None => 0 end)%nat.
Proof.
  assert (forall (st0 : job_state) (p : Z) (l : list string),
            (exists new,
               fetches (log st0) = fetches (log st0) ++ new
               /\ new `sublist_of` l
               /\ (0 < max_retries ->
                   delays (log st0) = (delays (log st0) + length new)%nat))
            /\ p <= p <= Z.max p max_subpages
            /\ delays (log st0)
               = (delays (log st0) + Z.to_nat (p - p) + 0)%nat) as Hstop.
  { intros st0 p l. split; [|split; lia].
    exists []. rewrite app_nil_r. split; [done|].
    split; [apply sublist_nil_l | simpl; lia]. }
  revert pv em st. induction frontier as [|u rest IH]; intros pv em st.
  - simpl. intros [= <- <-]. apply Hstop.
  - simpl. destruct (Z.ltb_spec pv max_subpages) as [Hpv | Hpv].
    2: { intros [= <- <-]. apply Hstop. }
    destruct (decide (u ∈ visited_urls st)) as [Hin | Hout].
    + rewrite bool_decide_eq_true_2 by done. intros H.
      apply IH in H as ((new & Hn & Hsub & Hd) & Hb & Hc).
      split; [|done]. exists new. split; [done|].
      split; [by apply sublist_cons | done].
    + rewrite bool_decide_eq_false_2 by done.
      destruct (process u max_retries (record PoliteDelay st))
        as [r st1] eqn:Hp.
      pose proof (process_no_delay _ _ _ _ _ Hp) as Hd1.
      cbn [log record] in Hd1. rewrite delays_app in Hd1.
      change (delays [PoliteDelay]) with 1%nat in Hd1.
      apply CrawlFacts.process_fresh in Hp as (_ & (evs & Hl & _ & Hf) & _);
        [|done].
      simpl log in Hl.
      assert (fetches (log st1) = fetches (log st) ++ fetches evs) as Hone.
      { rewrite Hl, !fetches_app. simpl. by rewrite app_nil_r. }
      assert (forall new, new `sublist_of` rest ->
                          fetches evs ++ new `sublist_of` u :: rest) as Hsub1.
      { intros new Hnew. rewrite Hf. destruct (0 <? max_retries); simpl.
        - by apply sublist_skip.
        - by apply sublist_cons. }
      assert (0 < max_retries -> length (fetches evs) = 1%nat) as Hlen1.
      { intros Hmr. rewrite Hf.
        by assert ((0 <? max_retries) = true) as -> by lia. }
      destruct r as [[emails subs] | e].
      * intros H. apply IH in H as ((new & Hn & Hsub & Hd) & Hb & Hc).
        split; [|split; lia].
        exists (fetches evs ++ new). rewrite Hn, Hone, <- app_assoc.
        split; [done|]. split; [by apply Hsub1|].
        intros Hmr. rewrite length_app, (Hlen1 Hmr), (Hd Hmr). lia.
      * intros [= <- <-]. simpl. split; [|split; lia].
        exists (fetches evs). split; [done|]. split.
        -- rewrite <- (app_nil_r (fetches evs)). apply Hsub1, sublist_nil_l.
        -- intros Hmr. rewrite (Hlen1 Hmr). lia.
Qed.

Lemma filter_all {A : Type} (P : A -> Prop) `{!forall x, Decision (P x)}
    (l : list A) :
  (forall x, x ∈ l -> P x) -> filter P l = l.
Proof.
  induction l as [|x l IH]; intros Hall; [done|].
  rewrite filter_cons_True by (apply Hall; by left).
  rewrite IH; [done|]. intros y Hy. apply Hall. by right.
Qed.

Lemma filter_agree {A : Type} (P Q : A -> Prop)
    `{!forall x, Decision (P x)} `{!forall x, Decision (Q x)} (l : list A) :
  (forall x, x ∈ l -> P x <-> Q x) -> filter P l = filter Q l.
Proof.
  induction l as [|x l IH]; intros Hall; [done|].
  assert (filter P l = filter Q l) as Hl.
  { apply IH. intros y Hy. apply Hall. by right. }
  destruct (decide (P x)) as [Hp | Hp].
  - rewrite !filter_cons_True; [by rewrite Hl | | done].
    apply Hall; [by left | done].
  - rewrite !filter_cons_False; [done | | done].
    intros Hq. apply Hp, Hall; [by left | done].
Qed.

(** With a try allowed, the loop fetches the links of the frontier that
    are not yet visited, from its head on. *)
Lemma drain_prefix (max_subpages max_retries : Z) (frontier : list string)
    (pv : Z) (em : gset string) (st st' : job_state) (fin : loop_end) :
  0 < max_retries -> NoDup frontier ->
  drain_loop max_subpages max_retries frontier pv em st = (fin, st') ->
  exists k,
    fetches (log st')
    = fetches (log st)
      ++ take k (filter (fun u => u ∉ visited_urls st) frontier)
    /\ (k <= Z.to_nat (max_subpages - pv))%nat
    /\ (raised fin = None -> k = Z.to_nat (max_subpages - pv))
    /\ delays (log st')
       = (delays (log st)
          + length (take k (filter (fun u => u ∉ visited_urls st) frontier)))%nat.
Proof.
  intros Hmr. revert pv em st.
  induction frontier as [|u rest IH]; intros pv em st Hnd.
  - simpl. intros [= <- <-]. exists (Z.to_nat (max_subpages - pv)).
    rewrite filter_nil, take_nil, app_nil_r. simpl. split; [done|].
    split; [lia|]. split; [done | lia].
  - apply NoDup_cons in Hnd as [Hu Hnd]. cbn [drain].
    destruct (Z.ltb_spec pv max_subpages) as [Hpv | Hpv].
    2: { intros [= <- <-]. exists O. rewrite take_0, app_nil_r. simpl.
         split; [done|]. split; [lia|]. split; [lia | lia]. }
    destruct (decide (u ∈ visited_urls st)) as [Hin | Hout].
    + rewrite bool_decide_eq_true_2 by done.
      rewrite filter_cons_False by (intros Hn; by apply Hn).
      by apply IH.
    + rewrite bool_decide_eq_false_2 by done.
      rewrite filter_cons_True by done.
      destruct (process u max_retries (record PoliteDelay st))
        as [r st1] eqn:Hp.
      pose proof (process_no_delay _ _ _ _ _ Hp) as Hd1.
      cbn [log record] in Hd1. rewrite delays_app in Hd1.
      change (delays [PoliteDelay]) with 1%nat in Hd1.
      apply CrawlFacts.process_fresh in Hp as (Hv & (evs & Hl & _ & Hf) & _);
        [|done].
      cbn [log visited_urls record] in Hl, Hv.
      assert ((0 <? max_retries) = true) as Hlt by lia.
      rewrite Hlt in Hf.
      assert (fetches (log st1) = fetches (log st) ++ [u]) as Hone.
      { rewrite Hl, !fetches_app, Hf. simpl. by rewrite app_nil_r. }
      assert (filter (fun v => v ∉ visited_urls st1) rest
              = filter (fun v => v ∉ visited_urls st) rest) as Hsame.
      { apply filter_agree. intros v Hvin. rewrite Hv.
        rewrite not_elem_of_union, not_elem_of_singleton.
        split; [by intros [_ ?] | intros Hn; split; [|done]].
        intros ->. by apply Hu. }
      destruct r as [[emails subs] | e].
      * intros H. apply IH in H as (k & Hk & Hle & Hnone & Hd); [|done].
        rewrite Hsame in Hk, Hd.
        exists (S k). cbn [take length]. rewrite Hk, Hone, <- app_assoc.
        split; [done|]. split; [lia|]. split; [|lia].
        intros Hr. rewrite (Hnone Hr). lia.
      * intros [= <- <-]. exists 1%nat. cbn [take length raised].
        rewrite take_0. split; [done|]. split; [lia|].
        split; [done | simpl; lia].
Qed.

(** The job, once its seed has given links: the subpages it fetched and
    its pauses. *)
Lemma job_prefix (base_url : string) (max_subpages max_retries : Z)
    (emails : gset string) (subs : list string) (st1 : job_state) :
  process (normalize base_url) max_retries initial_state
  = (Ok (emails, subs), st1) ->
  exists k,
    (k <= Z.to_nat (max_subpages - 1))%nat
    /\ (job_raised (job base_url max_subpages max_retries) = None ->
        k = Z.to_nat (max_subpages - 1))
    /\ subpages_fetched (normalize base_url)
         (log (job_state_end (job base_url max_subpages max_retries)))
       = take k (filter (fun u => u <> normalize base_url) subs)
    /\ delays (log (job_state_end (job base_url max_subpages max_retries)))
       = length (take k (filter (fun u => u <> normalize base_url) subs)).
Proof.
  intros Hp. unfold run_job, subpages_fetched. rewrite Hp.
  destruct (Z.ltb_spec 0 max_retries) as [Hmr | Hmr].
  - pose proof (process_no_delay _ _ _ _ _ Hp) as Hd1. simpl in Hd1.
    apply CrawlFacts.process_fresh in Hp as (Hv & (evs & Hl & _ & Hf) & Hs);
      [|apply not_elem_of_empty].
    simpl in Hl, Hv. subst evs.
    assert ((0 <? max_retries) = true) as Hlt by lia. rewrite Hlt in Hf.
    assert (NoDup subs) as Hnd.
    { destruct (Hs emails subs eq_refl) as [-> | (n & sp & found & _ & _ & ->)];
        [apply NoDup_nil_2 | apply NoDup_elements]. }
    destruct (drain_loop max_subpages max_retries subs 1 (∅ ∪ emails) st1)
      as [fin st'] eqn:Hdr.
    apply drain_prefix in Hdr as (k & Hk & Hle & Hnone & Hd); [|done|done].
    assert (filter (fun u => u ∉ visited_urls st1) subs
            = filter (fun u => u <> normalize base_url) subs) as Hsame.
    { apply filter_agree. intros v _. rewrite Hv.
      rewrite not_elem_of_union, not_elem_of_singleton.
      split; [by intros [? _] | intros Hn; split; [done|]].
      apply not_elem_of_empty. }
    rewrite Hsame in Hk, Hd. exists k. simpl.
    split; [done|]. split; [done|]. split.
    + rewrite Hk, Hf, filter_app.
      rewrite filter_cons_False by (intros Hn; by apply Hn).
      simpl. apply filter_all. intros v Hvin.
      apply elem_of_take in Hvin as (i & Hvin & _).
      apply list_elem_of_lookup_2 in Hvin.
      by apply list_elem_of_filter in Hvin as [Hvin _].
    + rewrite Hd, Hd1. by unfold delays.
  - unfold process_url in Hp.
    rewrite bool_decide_eq_false_2 in Hp by apply not_elem_of_empty.
    assert (Z.to_nat max_retries = O) as Hn by lia. rewrite Hn in Hp.
    simpl in Hp. injection Hp as <- <- <-. simpl.
    exists (Z.to_nat (max_subpages - 1)).
    split; [lia|]. split; [done|]. rewrite filter_nil, take_nil. by split.
Qed.

(** The pauses of the job are as many as the subpages it fetched. *)
Lemma job_delays (base_url : string) (max_subpages max_retries : Z) :
  delays (log (job_state_end (job base_url max_subpages max_retries)))
  = length (subpages_fetched (normalize base_url)
              (log (job_state_end (job base_url max_subpages max_retries)))).
Proof.
  destruct (process (normalize base_url) max_retries initial_state)
    as [[[emails subs] | e] st1] eqn:Hp.
  - destruct (job_prefix base_url max_subpages max_retries _ _ _ Hp)
      as (k & _ & _ & Hs & Hd).
    by rewrite Hs, Hd.
  - unfold run_job, subpages_fetched. rewrite Hp. simpl.
    pose proof (process_no_delay _ _ _ _ _ Hp) as Hd1. simpl in Hd1.
    apply CrawlFacts.process_fresh in Hp as (_ & (evs & Hl & _ & Hf) & _);
      [|apply not_elem_of_empty].
    simpl in Hl. subst evs. rewrite Hd1, Hf.
    destruct (0 <? max_retries); [|done].
    by rewrite filter_cons_False by (intros Hn; by apply Hn).
Qed.

End Loop.
End LoopFacts.

Section LoopExtras.
Variable urljoin : string -> string -> result string.
Variable urlparse : string -> result parsed_url.
Variable net : nat -> string -> fetch_outcome.

(** X20. When the seed gave the links [subs], the subpages the job
    fetches are the first links of [subs] other than the seed, in the
    order of [subs]: at most [max_subpages - 1] of them, and exactly the
    first [max_subpages - 1] (or all, if there are fewer) unless an
    exception ended the job. *)
Theorem subpages_fetched_are_first_links (base_url : string)
    (max_subpages max_retries : Z) (emails : gset string)
    (subs : list string) (st1 : job_state) :
  process_url urljoin urlparse net (normalize base_url) max_retries
    initial_state = (Ok (emails, subs), st1) ->
  exists k,
    (k <= Z.to_nat (max_subpages - 1))%nat
    /\ (job_raised (run_job urljoin urlparse net base_url max_subpages
                      max_retries) = None ->
        k = Z.to_nat (max_subpages - 1))
    /\ subpages_fetched (normalize base_url)
         (log (job_state_end (run_job urljoin urlparse net base_url
                                max_subpages max_retries)))
       = take k (filter (fun u => u <> normalize base_url) subs).
Proof.
  intros Hp.
  destruct (LoopFacts.job_prefix urljoin urlparse net base_url max_subpages
              max_retries _ _ _ Hp) as (k & Hle & Hnone & Hs & _).
  by exists k.
Qed.

(** X21. The job sleeps its polite delay once for each subpage it
    fetches, and never for the seed. *)
Theorem one_polite_delay_per_subpage (base_url : string)
    (max_subpages max_retries : Z) :
  delays (log (job_state_end (run_job urljoin urlparse net base_url
                                max_subpages max_retries)))
  = length (subpages_fetched (normalize base_url)
              (log (job_state_end (run_job urljoin urlparse net base_url
                                     max_subpages max_retries)))).
Proof. apply LoopFacts.job_delays. Qed.

(** X22. The page counter of the loop of [find_emails] never decreases
    and never passes [max_subpages] (unless it started above it); the
    loop sleeps once for each page it counts, and once more for the page
    whose exception ended it. *)
Theorem loop_counter_and_pauses (max_subpages max_retries : Z)
    (subpages_to_visit : list string) (pages_visited0 : Z)
    (all_emails0 : gset string) (st : job_state) :
  let ended := drain urljoin urlparse net max_subpages max_retries
                 subpages_to_visit pages_visited0 all_emails0 st in
  pages_visited0 <= pages_visited (fst ended)
                 <= Z.max pages_visited0 max_subpages
  /\ delays (log (snd ended))
     = (delays (log st)
        + Z.to_nat (pages_visited (fst ended) - pages_visited0)
        + match raised (fst ended) with Some _ => 1 | None => 0 end)%nat.
Proof.
  intros ended.
  destruct ended as [fin st'] eqn:He. unfold ended in He.
  by apply LoopFacts.drain_account in He as (_ & Hb & Hd).
Qed.

End LoopExtras.

Lemma subpages_fetched_are_first_links_witness :
  exists k,
    (k <= Z.to_nat (3 - 1))%nat
    /\ (job_raised (run_job absolute_urljoin simple_urlparse site_net
                      "site.test" 3 2) = None ->
        k = Z.to_nat (3 - 1))
    /\ subpages_fetched (normalize "site.test")
         (log (job_state_end (run_job absolute_urljoin simple_urlparse
                                site_net "site.test" 3 2)))
       = take k (filter (fun u => u <> normalize "site.test")
                   (elements (list_to_set (map href contact_links)
                              : gset string))).
Proof.
  eapply (subpages_fetched_are_first_links absolute_urljoin simple_urlparse
            site_net "site.test" 3 2).
  vm_compute. reflexivity.
Defined.
